(** * Uniform-cost search (main.py): a shallow embedding and its properties

    [main.uniform_cost_search graph start goal] keeps a priority queue of
    tuples [(cost, node, path)] and a set of visited nodes.  The graph is a
    Python [dict] from node labels to lists of [(connectedNode, cost)]
    tuples; node labels are strings and costs are Python integers. *)

From stdpp Require Import base gmap sets list strings.
From Stdlib Require Import ZArith Lia.

(** ** Data model *)

Abbreviation node := string (only parsing).

(** An edge, as stored in the lists of the dictionary: [(connectedNode, cost)]. *)
Abbreviation edge := (string * Z)%type (only parsing).

(** The graph dictionary.  [g !! n = None] is a missing key. *)
Abbreviation graph := (gmap string (list (string * Z))) (only parsing).

(** A queue entry: the tuple [(cost, current_node, path)]. *)
Abbreviation entry := (Z * string * list string)%type (only parsing).

Definition entry_cost (e : entry) : Z := e.1.1.
Definition entry_node (e : entry) : node := e.1.2.
Definition entry_path (e : entry) : list node := e.2.

(** ** The order of the queue: Python's [<] on tuples

    [heapq] compares entries with [<].  On tuples Python compares
    component by component: the first components that differ decide.  The
    components are an integer, a string (compared character by character)
    and a list of strings (compared element by element, a proper prefix
    being smaller). *)

Fixpoint path_compare (p1 p2 : list node) : comparison :=
  match p1, p2 with
  | [], [] => Eq
  | [], _ :: _ => Lt
  | _ :: _, [] => Gt
  | x :: p1', y :: p2' =>
      match String.compare x y with
      | Eq => path_compare p1' p2'
      | c => c
      end
  end.

(** The comparison of the last two components, [(node, path)]. *)
Definition tie_compare (t1 t2 : node * list node) : comparison :=
  match String.compare t1.1 t2.1 with
  | Eq => path_compare t1.2 t2.2
  | c => c
  end.

Definition entry_compare (e1 e2 : entry) : comparison :=
  match Z.compare (entry_cost e1) (entry_cost e2) with
  | Eq => tie_compare (entry_node e1, entry_path e1) (entry_node e2, entry_path e2)
  | c => c
  end.

(** [e1 < e2] in Python. *)
Definition entry_lt (e1 e2 : entry) : bool :=
  match entry_compare e1 e2 with Lt => true | _ => false end.

(** [e1 <= e2]: Python's [not (e2 < e1)]. *)
Definition entry_le (e1 e2 : entry) : Prop := entry_lt e2 e1 = false.

(** ** The priority queue: [heapq.heappush] and [heapq.heappop]

    [heapq] is Python's library; the program relies on its contract: the
    heap holds the entries pushed and not yet popped, and [heappop] removes
    and returns a smallest one for [<].  The queue is modelled as the list
    of pending entries in the order of their insertion, and [heappop]
    selects the smallest entry of that list.  [<] on entries is a strict
    total order, so the entry popped and the entries left do not depend on
    how a heap arranges them ([ucs_run] below is the search over any such
    arrangement). *)

Definition heappush (queue : list entry) (item : entry) : list entry :=
  queue ++ [item].

(** [heappop queue] is [None] on the empty queue (the program tests
    [while queue] before it pops), else the smallest entry and the rest. *)
Fixpoint heappop (queue : list entry) : option (entry * list entry) :=
  match queue with
  | [] => None
  | x :: queue' =>
      match heappop queue' with
      | None => Some (x, [])
      | Some (m, rest) =>
          if entry_lt m x then Some (m, x :: rest) else Some (x, queue')
      end
  end.

(** ** The search *)

(** What a call does: it returns [(path, cost)] or [None], or the lookup
    [graph[current_node]] raises [KeyError].  [OutOfFuel] is the model
    stopping before the loop did. *)
Inductive outcome : Type :=
  | Returned (r : option (list node * Z))
  | KeyError (n : node)
  | OutOfFuel.

(** The [for connectedNode, cost in graph[current_node]] loop: every
    neighbour that is not in [visited] is pushed with the accumulated cost
    and the extended path. *)
Fixpoint push_edges (visited : gset node) (current_cost : Z) (path : list node)
    (edges : list edge) (queue : list entry) : list entry :=
  match edges with
  | [] => queue
  | (connectedNode, cost) :: edges' =>
      if decide (connectedNode ∈ visited)
      then push_edges visited current_cost path edges' queue
      else push_edges visited current_cost path edges'
             (heappush queue
                ((current_cost + cost)%Z, connectedNode, path ++ [connectedNode]))
  end.

(** One iteration of [while queue], by the way it leaves the body. *)
Inductive step : Type :=
  | Exhausted                                        (* the queue is empty: [return None] *)
  | Found (path : list node) (cost : Z)              (* [return (path, current_cost)] *)
  | Skipped (n : node) (queue : list entry) (visited : gset node)   (* [continue] *)
  | Raised (n : node)                                (* [graph[current_node]]: KeyError *)
  | Expanded (n : node) (queue : list entry) (visited : gset node). (* the [for] loop ran *)

Definition loop_body (g : graph) (goal : node)
    (queue : list entry) (visited : gset node) : step :=
  match heappop queue with
  | None => Exhausted
  | Some ((current_cost, current_node, path), queue') =>
      if decide (current_node = goal) then Found path current_cost
      else if decide (current_node ∈ visited) then Skipped current_node queue' visited
      else
        let visited' := {[current_node]} ∪ visited in
        match g !! current_node with
        | None => Raised current_node
        | Some edges =>
            Expanded current_node
              (push_edges visited' current_cost path edges queue') visited'
        end
  end.

Fixpoint ucs_loop (fuel : nat) (g : graph) (goal : node)
    (queue : list entry) (visited : gset node) : outcome :=
  match fuel with
  | O => OutOfFuel
  | S fuel' =>
      match loop_body g goal queue visited with
      | Exhausted => Returned None
      | Found path cost => Returned (Some (path, cost))
      | Raised n => KeyError n
      | Skipped _ queue' visited' => ucs_loop fuel' g goal queue' visited'
      | Expanded _ queue' visited' => ucs_loop fuel' g goal queue' visited'
      end
  end.

(** The edges of one key of the dictionary, counted when the key is not
    in [visited]. *)
Definition pending (visited : gset node) (kv : node * list edge) : nat :=
  if decide (kv.1 ∈ visited) then 0 else length kv.2.

(** The number of edges of the graph that leave a node outside [visited]. *)
Definition pending_edges (g : graph) (visited : gset node) : nat :=
  sum_list (pending visited <$> map_to_list g).

(** Iterations that suffice for any call on [g]: every entry pushed but
    the first comes from an edge, and one more iteration sees the empty
    queue. *)
Definition fuel_bound (g : graph) : nat := pending_edges g ∅ + 2.

(** [queue = []] followed by [heapq.heappush(queue, (0, start, [start]))]. *)
Definition initial_queue (start : node) : list entry :=
  heappush [] (0%Z, start, [start]).

Definition uniform_cost_search (g : graph) (start goal : node) : outcome :=
  ucs_loop (fuel_bound g) g goal (initial_queue start) ∅.

(** The iterations of the loop, in order: the queue and the visited set at
    the head of the loop, and how the body was left. *)
Fixpoint ucs_trace (fuel : nat) (g : graph) (goal : node)
    (queue : list entry) (visited : gset node)
    : list (list entry * gset node * step) :=
  match fuel with
  | O => []
  | S fuel' =>
      let s := loop_body g goal queue visited in
      (queue, visited, s) ::
      match s with
      | Skipped _ queue' visited' | Expanded _ queue' visited' =>
          ucs_trace fuel' g goal queue' visited'
      | _ => []
      end
  end.

(** The node whose edge list an iteration went through, if it did. *)
Definition expanded_node (it : list entry * gset node * step) : option node :=
  match it.2 with
  | Expanded n _ _ => Some n
  | _ => None
  end.

Definition expansions (trace : list (list entry * gset node * step)) : list node :=
  omap expanded_node trace.

(** The measure of the loop: the entries of the queue plus the edges that
    leave the nodes not yet visited. *)
Definition measure (g : graph) (queue : list entry) (visited : gset node) : nat :=
  length queue + pending_edges g visited.

(** ** The search over any heap

    The same loop, where the queue is any arrangement of the pending
    entries: a pop takes a smallest entry off any permutation of the queue,
    and the pushes of an expansion leave the entries in any order. *)

Definition pops (queue : list entry) (e : entry) (rest : list entry) : Prop :=
  queue ≡ₚ e :: rest ∧ ∀ x, x ∈ rest → entry_le e x.

Inductive ucs_run (g : graph) (goal : node) :
    list entry → gset node → outcome → Prop :=
  | run_exhausted visited :
      ucs_run g goal [] visited (Returned None)
  | run_found queue visited c p rest :
      pops queue (c, goal, p) rest →
      ucs_run g goal queue visited (Returned (Some (p, c)))
  | run_skipped queue visited c n p rest r :
      pops queue (c, n, p) rest → n ≠ goal → n ∈ visited →
      ucs_run g goal rest visited r →
      ucs_run g goal queue visited r
  | run_raised queue visited c n p rest :
      pops queue (c, n, p) rest → n ≠ goal → n ∉ visited →
      g !! n = None →
      ucs_run g goal queue visited (KeyError n)
  | run_expanded queue visited c n p rest edges queue' r :
      pops queue (c, n, p) rest → n ≠ goal → n ∉ visited →
      g !! n = Some edges →
      queue' ≡ₚ push_edges ({[n]} ∪ visited) c p edges rest →
      ucs_run g goal queue' ({[n]} ∪ visited) r →
      ucs_run g goal queue visited r.

(** ** The graphs of the repository *)

(** [graph] of main.py. *)
Definition main_graph : graph :=
  list_to_map
    [("A", [("B", 1%Z); ("C", 5%Z)]);
     ("B", [("C", 2%Z)]);
     ("C", [])].

(** [graph] of test.py. *)
Definition test_graph : graph :=
  list_to_map
    [("A", [("B", 2%Z); ("C", 1%Z); ("D", 7%Z)]);
     ("B", [("E", 5%Z); ("F", 3%Z)]);
     ("C", [("B", 4%Z); ("F", 6%Z)]);
     ("D", [("G", 8%Z); ("C", 2%Z)]);
     ("E", [("H", 3%Z)]);
     ("F", [("H", 2%Z); ("I", 4%Z)]);
     ("G", [("J", 4%Z)]);
     ("H", [("I", 1%Z); ("J", 2%Z)]);
     ("I", [("J", 3%Z)]);
     ("J", [])].

(** A graph with an edge to a node that is not a key. *)
Definition open_graph : graph := {[ "A" := [("B", 1%Z)] ]}.

(** Two paths of equal cost; the edge to ["B"] comes first in the list. *)
Definition tie_graph : graph :=
  list_to_map
    [("S", [("B", 1%Z); ("A", 1%Z)]);
     ("A", [("G", 1%Z)]);
     ("B", [("G", 1%Z)]);
     ("G", [])].

(** ** Paths of the graph *)

(** [graph[u]] holds the tuple [(v, w)]: an edge from [u] to [v] of cost [w]. *)
Definition has_edge (g : graph) (u v : node) (w : Z) : Prop :=
  ∃ edges, g !! u = Some edges ∧ (v, w) ∈ edges.

(** [path_cost g p c]: every consecutive pair of [p] is an edge of [g], and
    the costs of these edges add up to [c].  A path may visit a node more
    than once. *)
Inductive path_cost (g : graph) : list node → Z → Prop :=
  | path_one u : path_cost g [u] 0
  | path_cons u v p w c :
      has_edge g u v w → path_cost g (v :: p) c →
      path_cost g (u :: v :: p) (w + c).

Definition path_from_to (g : graph) (start goal : node)
    (path : list node) (cost : Z) : Prop :=
  head path = Some start ∧ last path = Some goal ∧ path_cost g path cost.

(** [costs] holds a cost for each consecutive pair of [path], and each
    pair is an edge of the graph with this cost. *)
Definition consecutive_edges (g : graph) (path : list node) (costs : list Z) : Prop :=
  length path = S (length costs) ∧
  ∀ i u v w,
    path !! i = Some u → path !! S i = Some v → costs !! i = Some w →
    has_edge g u v w.

(** The same paths, built the way the search builds them: by appending. *)
Inductive walk (g : graph) (start : node) : node → list node → Z → Prop :=
  | walk_start : walk g start start [start] 0
  | walk_step u v p c w :
      walk g start u p c → has_edge g u v w →
      walk g start v (p ++ [v]) (c + w).

(** No edge has a negative cost. *)
Definition nonneg_costs (g : graph) : Prop :=
  ∀ u v w, has_edge g u v w → (0 ≤ w)%Z.

(** Every node that a path from [start] reaches is a key of the dictionary. *)
Definition reachable_keys (g : graph) (start : node) : Prop :=
  ∀ t p c, path_from_to g start t p c → is_Some (g !! t).

(** The checks of the two conditions on a given dictionary. *)
Definition nonneg_costsb (g : graph) : bool :=
  bool_decide (map_Forall (λ _ edges, Forall (λ vw : edge, (0 ≤ vw.2)%Z) edges) g).

Definition closed_graphb (g : graph) : bool :=
  bool_decide (map_Forall (λ _ edges, Forall (λ vw : edge, is_Some (g !! vw.1)) edges) g).

(** ** Invariants of the loop *)

(** Every entry [(c, n, p)] of the queue holds a path [p] of the graph
    from [start] to [n], of cost [c]. *)
Definition entries_valid (g : graph) (start : node) (queue : list entry) : Prop :=
  ∀ c n p, (c, n, p) ∈ queue → path_from_to g start n p c.

(** While [start] has not been visited, its first entry is pending. *)
Definition start_pending (start : node)
    (queue : list entry) (visited : gset node) : Prop :=
  start ∈ visited ∨ (0%Z, start, [start]) ∈ queue.

(** Every edge that leaves [visited] has a pending entry for its target,
    that costs no more than any path that ends with this edge. *)
Definition frontier_covers (g : graph) (start : node)
    (queue : list entry) (visited : gset node) : Prop :=
  ∀ x y w p c,
    x ∈ visited → has_edge g x y w → y ∉ visited →
    path_from_to g start x p c →
    ∃ e, e ∈ queue ∧ entry_node e = y ∧ (entry_cost e ≤ c + w)%Z.

(** ** Comparisons as total orders

    What the proofs need of Python's comparison of the components of an
    entry: [<] is a strict total order whose equivalence is equality. *)

Class TotalCompare {A : Type} (cmp : A → A → comparison) : Prop := {
  cmp_refl x : cmp x x = Eq;
  cmp_eq x y : cmp x y = Eq → x = y;
  cmp_antisym x y : cmp x y = CompOpp (cmp y x);
  cmp_trans x y z : cmp x y = Lt → cmp y z = Lt → cmp x z = Lt
}.

(** The lexicographic comparison of pairs, as Python compares tuples. *)
Definition lex_compare {A B : Type} (ca : A → A → comparison)
    (cb : B → B → comparison) (x y : A * B) : comparison :=
  match ca x.1 y.1 with
  | Eq => cb x.2 y.2
  | c => c
  end.

(** ** More invariants of the loop *)

(** Every edge that leaves [visited] has a pending entry for its target. *)
Definition edges_queued (g : graph)
    (queue : list entry) (visited : gset node) : Prop :=
  ∀ x y w,
    x ∈ visited → has_edge g x y w → y ∉ visited →
    ∃ e, e ∈ queue ∧ entry_node e = y.

(** Every visited node is a key: the loop goes on after
    [visited.add(current_node)] only when [graph[current_node]] is found. *)
Definition visited_keys (g : graph) (visited : gset node) : Prop :=
  ∀ x, x ∈ visited → is_Some (g !! x).

(** The path of an entry visits no node twice, and its nodes are visited,
    but for the node of the entry. *)
Definition entries_simple (queue : list entry) (visited : gset node) : Prop :=
  ∀ c n p, (c, n, p) ∈ queue → NoDup p ∧ ∀ x, x ∈ p → x = n ∨ x ∈ visited.

(** No entry of the queue costs less than [bound]. *)
Definition entries_above (bound : Z) (queue : list entry) : Prop :=
  ∀ e, e ∈ queue → (bound ≤ entry_cost e)%Z.

(** Two dictionaries with the same keys, whose lists hold the same edges in
    any order. *)
Definition same_edges (g1 g2 : graph) : Prop :=
  ∀ n, option_Forall2 (≡ₚ) (g1 !! n) (g2 !! n).

(** [g2] has the entry of [g1] for every node that a path of [g1] from
    [start] reaches, the goal apart. *)
Definition agree_on_reachable (g1 g2 : graph) (start goal : node) : Prop :=
  ∀ n p c, path_from_to g1 start n p c → n ≠ goal → g1 !! n = g2 !! n.

(** A graph with a cycle between ["A"] and ["B"], of cost zero. *)
Definition cycle_graph : graph :=
  list_to_map
    [("A", [("B", 0%Z)]);
     ("B", [("A", 0%Z); ("C", 1%Z)]);
     ("C", [])].

(** A direct edge of cost [direct] from ["A"] to ["C"], and a way round
    through ["B"] of costs [first] and [second]. *)
Definition detour_graph (direct first second : Z) : graph :=
  {[ "A" := [("B", first); ("C", direct)]; "B" := [("C", second)] ]}.

(** * Lemmas *)

(** ** Total comparisons *)

Section total_compare.
Context {A : Type} (cmp : A → A → comparison) `{!TotalCompare cmp}.

Lemma cmp_gt_lt x y : cmp x y = Gt ↔ cmp y x = Lt.
Proof. rewrite (cmp_antisym x y). destruct (cmp y x); simpl; intuition congruence. Qed.

Lemma cmp_eq_iff x y : cmp x y = Eq ↔ x = y.
Proof. split; [apply cmp_eq | intros ->; apply cmp_refl]. Qed.

(** [not (y < x)] and [not (z < y)] give [not (z < x)]. *)
Lemma cmp_not_lt_trans x y z : cmp y x ≠ Lt → cmp z y ≠ Lt → cmp z x ≠ Lt.
Proof.
  intros Hyx Hzy Hzx.
  destruct (cmp y x) eqn:E1; [apply cmp_eq in E1; subst; done | done |].
  destruct (cmp z y) eqn:E2; [apply cmp_eq in E2; subst; congruence | done |].
  apply cmp_gt_lt in E1, E2.
  pose proof (cmp_trans _ _ _ E1 E2) as E3.
  apply cmp_gt_lt in E3. congruence.
Qed.

End total_compare.

Global Instance lex_compare_total {A B : Type} (ca : A → A → comparison)
    (cb : B → B → comparison) `{!TotalCompare ca, !TotalCompare cb} :
  TotalCompare (lex_compare ca cb).
Proof.
  split; unfold lex_compare.
  - intros [a b]; simpl. rewrite (cmp_refl (cmp:=ca)). apply cmp_refl.
  - intros [a b] [a' b']; simpl.
    destruct (ca a a') eqn:E; try done.
    intros E'. apply cmp_eq in E, E'. congruence.
  - intros [a b] [a' b']; simpl.
    rewrite (cmp_antisym (cmp:=ca) a a').
    destruct (ca a' a); simpl; try done. apply cmp_antisym.
  - intros [a b] [a' b'] [a'' b'']; simpl.
    destruct (ca a a') eqn:E1; try done.
    + apply cmp_eq in E1 as ->.
      destruct (ca a' a'') eqn:E2; try done. apply cmp_trans.
    + destruct (ca a' a'') eqn:E2; try done.
      * apply cmp_eq in E2 as <-. by rewrite E1.
      * by rewrite (cmp_trans _ _ _ E1 E2).
Qed.

Global Instance Z_compare_total : TotalCompare Z.compare.
Proof.
  split.
  - apply Z.compare_refl.
  - intros x y. apply Z.compare_eq.
  - intros x y. apply Z.compare_antisym.
  - intros x y z. rewrite !Z.compare_lt_iff. lia.
Qed.

Global Instance string_compare_total : TotalCompare String.compare.
Proof.
  assert (Hrefl : ∀ s, String.compare s s = Eq).
  { induction s as [|a s IH]; simpl; [done|].
    unfold Ascii.compare. by rewrite N.compare_refl. }
  split.
  - done.
  - apply String.compare_eq_iff.
  - apply String.compare_antisym.
  - intros x y z Hxy Hyz.
    assert (Hle : String.le x z).
    { transitivity y; unfold String.le, String.leb; [by rewrite Hxy | by rewrite Hyz]. }
    unfold String.le, String.leb in Hle.
    destruct (String.compare x z) eqn:E; [|done..].
    apply String.compare_eq_iff in E as ->.
    rewrite String.compare_antisym, Hxy in Hyz. done.
Qed.

Global Instance path_compare_total : TotalCompare path_compare.
Proof.
  split.
  - induction x as [|a p IH]; simpl; [done|].
    by rewrite (cmp_refl (cmp:=String.compare)).
  - induction x as [|a p IH]; intros [|b q]; simpl; try done.
    destruct (String.compare a b) eqn:E; try done.
    apply cmp_eq in E as ->. intros ->%IH. done.
  - induction x as [|a p IH]; intros [|b q]; simpl; try done.
    rewrite (cmp_antisym (cmp:=String.compare) a b).
    destruct (String.compare b a); simpl; auto.
  - induction x as [|a p IH]; intros [|b q] [|c r]; simpl; try done.
    destruct (String.compare a b) eqn:E1; try done.
    + apply cmp_eq in E1 as ->.
      destruct (String.compare b c) eqn:E2; try done. apply IH.
    + destruct (String.compare b c) eqn:E2; try done.
      * apply cmp_eq in E2 as <-. by rewrite E1.
      * by rewrite (cmp_trans _ _ _ E1 E2).
Qed.

Lemma tie_compare_lex : tie_compare = lex_compare String.compare path_compare.
Proof. reflexivity. Qed.

Global Instance tie_compare_total : TotalCompare tie_compare.
Proof. rewrite tie_compare_lex. apply _. Qed.

Global Instance entry_compare_total : TotalCompare entry_compare.
Proof.
  split.
  - intros [[c n] p]. unfold entry_compare, entry_cost, entry_node, entry_path; simpl.
    rewrite Z.compare_refl. apply cmp_refl.
  - intros [[c n] p] [[c' n'] p']. unfold entry_compare, entry_cost, entry_node, entry_path; simpl.
    destruct (Z.compare c c') eqn:E; try done.
    apply Z.compare_eq in E as ->. intros E%cmp_eq. congruence.
  - intros [[c n] p] [[c' n'] p']. unfold entry_compare, entry_cost, entry_node, entry_path; simpl.
    rewrite (Z.compare_antisym c' c).
    destruct (Z.compare c' c); simpl; try done. apply cmp_antisym.
  - intros [[c n] p] [[c' n'] p'] [[c'' n''] p'']. unfold entry_compare, entry_cost, entry_node, entry_path; simpl.
    destruct (Z.compare c c') eqn:E1; try done.
    + apply Z.compare_eq in E1 as ->.
      destruct (Z.compare c' c'') eqn:E2; try done. apply cmp_trans.
    + destruct (Z.compare c' c'') eqn:E2; try done.
      * apply Z.compare_eq in E2 as <-. by rewrite E1.
      * by rewrite (cmp_trans (cmp:=Z.compare) _ _ _ E1 E2).
Qed.

Lemma entry_le_spec e1 e2 : entry_le e1 e2 ↔ entry_compare e2 e1 ≠ Lt.
Proof. unfold entry_le, entry_lt. destruct (entry_compare e2 e1); naive_solver. Qed.

Lemma entry_le_refl e : entry_le e e.
Proof. apply entry_le_spec. by rewrite (cmp_refl (cmp:=entry_compare)). Qed.

Lemma entry_le_trans e1 e2 e3 : entry_le e1 e2 → entry_le e2 e3 → entry_le e1 e3.
Proof.
  rewrite !entry_le_spec. intros H12 H23.
  by apply (cmp_not_lt_trans entry_compare e1 e2 e3).
Qed.

Lemma entry_le_antisym e1 e2 : entry_le e1 e2 → entry_le e2 e1 → e1 = e2.
Proof.
  rewrite !entry_le_spec. intros H12 H21.
  destruct (entry_compare e1 e2) eqn:E; [by apply cmp_eq in E | done |].
  by apply (cmp_gt_lt entry_compare) in E.
Qed.

Lemma entry_lt_le e1 e2 : entry_lt e1 e2 = true → entry_le e1 e2.
Proof.
  unfold entry_le, entry_lt. rewrite (cmp_antisym (cmp:=entry_compare) e2 e1).
  by destruct (entry_compare e1 e2).
Qed.

Lemma entry_le_cost e1 e2 : entry_le e1 e2 → (entry_cost e1 ≤ entry_cost e2)%Z.
Proof.
  rewrite entry_le_spec. unfold entry_compare. intros H.
  destruct (Z.compare (entry_cost e2) (entry_cost e1)) eqn:E.
  - apply Z.compare_eq in E. lia.
  - done.
  - apply Z.compare_gt_iff in E. lia.
Qed.

(** ** The queue *)

Lemma heappop_None queue : heappop queue = None ↔ queue = [].
Proof.
  destruct queue as [|x q]; simpl; [done|].
  split; [|done]. destruct (heappop q) as [[m r]|]; [|done].
  by destruct (entry_lt m x).
Qed.

Lemma heappop_perm queue e rest : heappop queue = Some (e, rest) → queue ≡ₚ e :: rest.
Proof.
  revert e rest. induction queue as [|x q IH]; intros e rest; simpl; [done|].
  destruct (heappop q) as [[m r]|] eqn:Hq.
  - destruct (entry_lt m x); intros [= <- <-]; [|done].
    rewrite (IH _ _ eq_refl). apply Permutation_swap.
  - intros [= <- <-]. by apply heappop_None in Hq as ->.
Qed.

Lemma heappop_min queue e rest :
  heappop queue = Some (e, rest) → ∀ x, x ∈ rest → entry_le e x.
Proof.
  revert e rest. induction queue as [|x q IH]; intros e rest; simpl; [done|].
  destruct (heappop q) as [[m r]|] eqn:Hq.
  - destruct (entry_lt m x) eqn:Hlt; intros [= <- <-] y Hy.
    + apply elem_of_cons in Hy as [->|Hy]; [by apply entry_lt_le | by apply (IH _ _ eq_refl)].
    + rewrite (heappop_perm _ _ _ Hq) in Hy.
      apply elem_of_cons in Hy as [->|Hy]; [done|].
      apply entry_le_trans with m; [done | by apply (IH _ _ eq_refl)].
  - intros [= <- <-] y Hy. by apply elem_of_nil in Hy.
Qed.

Lemma heappop_elem queue e rest : heappop queue = Some (e, rest) → e ∈ queue.
Proof. intros ->%heappop_perm. apply elem_of_cons; by left. Qed.

Lemma heappop_rest queue e rest x : heappop queue = Some (e, rest) → x ∈ rest → x ∈ queue.
Proof. intros ->%heappop_perm ?. apply elem_of_cons; by right. Qed.

Lemma heappop_length queue e rest :
  heappop queue = Some (e, rest) → length queue = S (length rest).
Proof. by intros ->%heappop_perm. Qed.

Lemma heappop_elem_of queue e rest x :
  heappop queue = Some (e, rest) → x ∈ queue ↔ x = e ∨ x ∈ rest.
Proof. intros ->%heappop_perm. apply elem_of_cons. Qed.

(** ** Paths *)

Lemma path_cost_nonempty g p c : path_cost g p c → p ≠ [].
Proof. by destruct 1. Qed.

Lemma path_cost_snoc g p c u v w :
  path_cost g p c → last p = Some u → has_edge g u v w →
  path_cost g (p ++ [v]) (c + w).
Proof.
  intros Hp. revert u. induction Hp as [x|x y p w' c He Hp IH]; intros u Hl Huv.
  - simpl in Hl. injection Hl as ->. simpl.
    replace (0 + w)%Z with (w + 0)%Z by lia.
    apply path_cons; [done | apply path_one].
  - replace (w' + c + w)%Z with (w' + (c + w))%Z by lia.
    change ((x :: y :: p) ++ [v]) with (x :: (y :: p) ++ [v]).
    apply path_cons; [done|]. by apply (IH u).
Qed.

Lemma walk_path g start t p c : walk g start t p c → path_from_to g start t p c.
Proof.
  induction 1 as [|u v p c w Hw (Hh & Hl & Hp) He].
  - repeat split; [done.. | apply path_one].
  - repeat split.
    + destruct p; [done | by simpl in *].
    + apply last_snoc.
    + by apply path_cost_snoc with u.
Qed.

Lemma walk_prepend g s u t p c w :
  has_edge g s u w → walk g u t p c → walk g s t (s :: p) (w + c).
Proof.
  intros He. induction 1 as [|x y p c w' Hw IH Hxy].
  - replace (w + 0)%Z with (0 + w)%Z by lia.
    apply (walk_step g s s u [s] 0%Z w); [apply walk_start | done].
  - replace (w + (c + w'))%Z with (w + c + w')%Z by lia.
    change (s :: p ++ [y]) with ((s :: p) ++ [y]).
    by apply walk_step with x.
Qed.

Lemma path_walk g start t p c : path_from_to g start t p c → walk g start t p c.
Proof.
  intros (Hh & Hl & Hp). revert start t Hh Hl.
  induction Hp as [x|x y p w c He Hp IH]; intros start t Hh Hl.
  - simpl in *. injection Hh as <-. injection Hl as <-. apply walk_start.
  - simpl in Hh. injection Hh as <-.
    apply walk_prepend with y; [done|]. by apply IH.
Qed.

Lemma path_from_to_walk g start t p c :
  path_from_to g start t p c ↔ walk g start t p c.
Proof. split; [apply path_walk | apply walk_path]. Qed.

Lemma walk_cost_nonneg g start t p c : nonneg_costs g → walk g start t p c → (0 ≤ c)%Z.
Proof. intros Hg. induction 1 as [|u v p c w _ IH He]; [done|]. apply Hg in He. lia. Qed.

(** ** One iteration, case by case *)

Lemma loop_body_spec g goal queue visited :
  match loop_body g goal queue visited with
  | Exhausted => queue = []
  | Found path cost => ∃ queue', heappop queue = Some ((cost, goal, path), queue')
  | Skipped n queue' visited' =>
      ∃ c p, heappop queue = Some ((c, n, p), queue') ∧
             n ≠ goal ∧ n ∈ visited ∧ visited' = visited
  | Raised n =>
      ∃ c p queue', heappop queue = Some ((c, n, p), queue') ∧
                    n ≠ goal ∧ (n ∉ visited) ∧ g !! n = None
  | Expanded n queue'' visited' =>
      ∃ c p queue' edges,
        heappop queue = Some ((c, n, p), queue') ∧
        n ≠ goal ∧ (n ∉ visited) ∧ g !! n = Some edges ∧
        visited' = {[n]} ∪ visited ∧
        queue'' = push_edges visited' c p edges queue'
  end.
Proof.
  unfold loop_body.
  destruct (heappop queue) as [[[[c n] p] q']|] eqn:Hpop; [|by apply heappop_None].
  destruct (decide (n = goal)) as [->|Hn]; [by eexists|].
  destruct (decide (n ∈ visited)) as [Hv|Hv]; [by eexists _, _|].
  destruct (g !! n) as [es|] eqn:Hg.
  - eexists _, _, _, _. split_and!; done.
  - eexists _, _, _. split_and!; done.
Qed.

Lemma elem_of_push_edges visited c p edges queue e :
  e ∈ push_edges visited c p edges queue ↔
  e ∈ queue ∨ ∃ v w, (v, w) ∈ edges ∧ (v ∉ visited) ∧ e = ((c + w)%Z, v, p ++ [v]).
Proof.
  revert queue. induction edges as [|[v w] es IH]; intros queue; simpl.
  - split; [by left|]. intros [?|(v & w & H & _)]; [done | by apply elem_of_nil in H].
  - destruct (decide (v ∈ visited)) as [Hv|Hv]; rewrite IH; clear IH.
    + split; (intros [?|(v' & w' & Hin & Hv' & ->)]; [by left|right]).
      * exists v', w'. split_and!; [by right | done..].
      * apply elem_of_cons in Hin as [[= -> ->]|Hin]; [done|]. by exists v', w'.
    + unfold heappush. rewrite elem_of_app, list_elem_of_singleton. split.
      * intros [[?| ->]|(v' & w' & Hin & Hv' & ->)]; [by left|right..].
        -- exists v, w. split_and!; [by left | done..].
        -- exists v', w'. split_and!; [by right | done..].
      * intros [?|(v' & w' & Hin & Hv' & ->)]; [by left; left|].
        apply elem_of_cons in Hin as [[= -> ->]|Hin]; [by left; right|].
        right. by exists v', w'.
Qed.

Lemma length_push_edges visited c p edges queue :
  length (push_edges visited c p edges queue) ≤ length queue + length edges.
Proof.
  revert queue. induction edges as [|[v w] es IH]; intros queue; simpl; [lia|].
  destruct (decide (v ∈ visited)).
  - specialize (IH queue). lia.
  - specialize (IH (heappush queue ((c + w)%Z, v, p ++ [v]))).
    unfold heappush in *. rewrite length_app in IH. simpl in IH. lia.
Qed.

(** ** The measure of the loop

    An iteration that goes on removes one entry from the queue; when it
    pushes entries, they come from the edges of a node that it has just put
    in [visited].  So the entries of the queue plus the edges that leave the
    nodes not yet visited decrease. *)

Lemma pending_mono visited visited' kv :
  visited ⊆ visited' → pending visited' kv ≤ pending visited kv.
Proof.
  intros Hsub. unfold pending.
  destruct (decide (kv.1 ∈ visited)) as [Hk|Hk]; [|case_decide; lia].
  rewrite decide_True by set_solver. lia.
Qed.

Lemma pending_edges_visit g visited n edges :
  g !! n = Some edges → n ∉ visited →
  pending_edges g ({[n]} ∪ visited) + length edges ≤ pending_edges g visited.
Proof.
  intros Hg Hn. apply elem_of_map_to_list in Hg.
  unfold pending_edges. induction (map_to_list g) as [|kv l IH]; csimpl.
  - by apply elem_of_nil in Hg.
  - apply elem_of_cons in Hg as [<-|Hg].
    + assert (sum_list (pending ({[n]} ∪ visited) <$> l)
              ≤ sum_list (pending visited <$> l)) as Hmono.
      { clear. induction l as [|kv l IH]; csimpl; [done|].
        pose proof (pending_mono visited ({[n]} ∪ visited) kv (union_subseteq_r _ _)).
        lia. }
      unfold pending at 1 3; simpl.
      rewrite decide_True by set_solver. rewrite decide_False by done. lia.
    + specialize (IH Hg).
      pose proof (pending_mono visited ({[n]} ∪ visited) kv (union_subseteq_r _ _)).
      lia.
Qed.

Lemma loop_body_measure g goal queue visited :
  match loop_body g goal queue visited with
  | Skipped _ queue' visited' | Expanded _ queue' visited' =>
      measure g queue' visited' < measure g queue visited
  | _ => True
  end.
Proof.
  pose proof (loop_body_spec g goal queue visited) as H.
  destruct (loop_body g goal queue visited) as [| | n q' V' | n | n q' V']; try done.
  - destruct H as (c & p & Hpop & _ & _ & ->).
    apply heappop_length in Hpop. unfold measure. lia.
  - destruct H as (c & p & q0 & es & Hpop & _ & Hn & Hg & -> & ->).
    apply heappop_length in Hpop. unfold measure.
    pose proof (length_push_edges ({[n]} ∪ visited) c p es q0).
    pose proof (pending_edges_visit g visited n es Hg Hn). lia.
Qed.

(** The loop ends within [measure + 1] iterations. *)
Lemma ucs_loop_enough_fuel g goal fuel queue visited :
  measure g queue visited < fuel → ucs_loop fuel g goal queue visited ≠ OutOfFuel.
Proof.
  revert queue visited. induction fuel as [|fuel IH]; intros queue visited Hm; [lia|].
  simpl. pose proof (loop_body_measure g goal queue visited) as Hdec.
  destruct (loop_body g goal queue visited); try done; apply IH; lia.
Qed.

(** More fuel does not change what the loop returns. *)
Lemma ucs_loop_more_fuel g goal fuel k queue visited :
  ucs_loop fuel g goal queue visited ≠ OutOfFuel →
  ucs_loop (fuel + k) g goal queue visited = ucs_loop fuel g goal queue visited.
Proof.
  revert queue visited. induction fuel as [|fuel IH]; intros queue visited; [done|].
  simpl. destruct (loop_body g goal queue visited); try done; apply IH.
Qed.

Lemma initial_measure g start : measure g (initial_queue start) ∅ < fuel_bound g.
Proof. unfold measure, fuel_bound, initial_queue, heappush. simpl. lia. Qed.

Lemma ucs_trace_length g goal fuel queue visited :
  length (ucs_trace fuel g goal queue visited) ≤ measure g queue visited + 1.
Proof.
  revert queue visited. induction fuel as [|fuel IH]; intros queue visited; simpl; [lia|].
  pose proof (loop_body_measure g goal queue visited) as Hdec.
  destruct (loop_body g goal queue visited) as [| | n q' V' | n | n q' V']; simpl; try lia.
  - specialize (IH q' V'). lia.
  - specialize (IH q' V'). lia.
Qed.

(** ** Invariants of the loop *)

Section invariants.
Context (g : graph) (start goal : node).

Lemma entries_valid_initial : entries_valid g start (initial_queue start).
Proof.
  intros c n p [= -> -> ->]%list_elem_of_singleton.
  repeat split; [done.. | apply path_one].
Qed.

Lemma entries_valid_pop queue e rest :
  heappop queue = Some (e, rest) →
  entries_valid g start queue → entries_valid g start rest.
Proof. intros Hpop Hq c n p Hin. apply Hq. by eapply heappop_rest. Qed.

Lemma entries_valid_push_edges visited c n p edges queue :
  g !! n = Some edges → path_from_to g start n p c →
  entries_valid g start queue →
  entries_valid g start (push_edges visited c p edges queue).
Proof.
  intros Hg Hp Hq c' n' p' [Hin|(v & w & Hin & _ & [= -> -> ->])]%elem_of_push_edges.
  - by apply Hq.
  - apply walk_path. apply walk_step with n; [by apply path_walk|].
    by exists edges.
Qed.

(** What an iteration hands on, when the entries it started with are paths. *)
Lemma loop_body_valid queue visited :
  entries_valid g start queue →
  match loop_body g goal queue visited with
  | Exhausted => True
  | Found path cost => path_from_to g start goal path cost
  | Raised n => ∃ p c, path_from_to g start n p c
  | Skipped _ queue' _ | Expanded _ queue' _ => entries_valid g start queue'
  end.
Proof.
  intros Hq. pose proof (loop_body_spec g goal queue visited) as H.
  destruct (loop_body g goal queue visited) as [|p c|n q' V'|n|n q' V']; [done|..].
  - destruct H as (q' & Hpop). apply Hq. by eapply heappop_elem.
  - destruct H as (c & p & Hpop & _). by eapply entries_valid_pop.
  - destruct H as (c & p & q' & Hpop & _). exists p, c. apply Hq. by eapply heappop_elem.
  - destruct H as (c & p & q0 & es & Hpop & _ & _ & Hg & -> & ->).
    apply entries_valid_push_edges with n; [done| |by eapply entries_valid_pop].
    apply Hq. by eapply heappop_elem.
Qed.

(** [visited] only grows, and the goal is never put in it: the loop
    returns when it pops the goal. *)
Lemma loop_body_visited queue visited :
  match loop_body g goal queue visited with
  | Skipped _ _ visited' | Expanded _ _ visited' =>
      visited ⊆ visited' ∧ (goal ∉ visited → goal ∉ visited')
  | _ => True
  end.
Proof.
  pose proof (loop_body_spec g goal queue visited) as H.
  destruct (loop_body g goal queue visited) as [|p c|n q' V'|n|n q' V']; try done.
  - by destruct H as (c & p & _ & _ & _ & ->).
  - destruct H as (c & p & q0 & es & _ & Hn & _ & _ & -> & _). split.
    + apply union_subseteq_r.
    + intros Hgoal. rewrite not_elem_of_union, not_elem_of_singleton. by split.
Qed.

(** A returned pair is a path from [start] to [goal] with its cost. *)
Lemma ucs_loop_returns_path fuel queue visited path cost :
  entries_valid g start queue →
  ucs_loop fuel g goal queue visited = Returned (Some (path, cost)) →
  path_from_to g start goal path cost.
Proof.
  revert queue visited. induction fuel as [|fuel IH]; intros queue visited Hq; [done|].
  simpl. pose proof (loop_body_valid queue visited Hq) as Hstep.
  destruct (loop_body g goal queue visited) as [|p c|n q' V'|n|n q' V']; try done.
  - by intros [= <- <-].
  - by apply IH.
  - by apply IH.
Qed.

(** A [KeyError] names a node that a path from [start] reaches, that is
    not the goal and not a key. *)
Lemma ucs_loop_raises fuel queue visited n :
  entries_valid g start queue →
  ucs_loop fuel g goal queue visited = KeyError n →
  g !! n = None ∧ n ≠ goal ∧ ∃ p c, path_from_to g start n p c.
Proof.
  revert queue visited. induction fuel as [|fuel IH]; intros queue visited Hq; [done|].
  simpl. pose proof (loop_body_valid queue visited Hq) as Hstep.
  pose proof (loop_body_spec g goal queue visited) as H.
  destruct (loop_body g goal queue visited) as [|p c|m q' V'|m|m q' V']; try done.
  - by apply IH.
  - intros [= ->]. by destruct H as (c & p & q' & _ & ? & _ & ?).
  - by apply IH.
Qed.

(** *** The frontier *)

Hypothesis costs_nonneg : nonneg_costs g.

(** Every path to a node that is not visited costs at least as much as
    some pending entry. *)
Lemma frontier_below queue visited t p c :
  start_pending start queue visited → frontier_covers g start queue visited →
  walk g start t p c → t ∉ visited →
  ∃ e, e ∈ queue ∧ (entry_cost e ≤ c)%Z.
Proof.
  intros Hs Hf Hw. induction Hw as [|u v p c w Hw IH He]; intros Ht.
  - destruct Hs as [?|Hs]; [done|]. by eexists.
  - destruct (decide (u ∈ visited)) as [Hu|Hu].
    + destruct (Hf u v w p c Hu He Ht (walk_path _ _ _ _ _ Hw)) as (e & ? & _ & ?).
      by exists e.
    + destruct (IH Hu) as (e & ? & ?). exists e. split; [done|].
      apply costs_nonneg in He. lia.
Qed.

(** The entry popped for a node that is not visited has the least cost of
    all paths to this node. *)
Lemma popped_cost_minimal queue visited c n p rest :
  start_pending start queue visited → frontier_covers g start queue visited →
  heappop queue = Some ((c, n, p), rest) → n ∉ visited →
  ∀ p' c', path_from_to g start n p' c' → (c ≤ c')%Z.
Proof.
  intros Hs Hf Hpop Hn p' c' Hp.
  destruct (frontier_below queue visited n p' c' Hs Hf (path_walk _ _ _ _ _ Hp) Hn)
    as (e & Hin & Hle).
  apply (heappop_elem_of _ _ _ e Hpop) in Hin as [->|Hin]; [done|].
  apply (heappop_min _ _ _ Hpop), entry_le_cost in Hin.
  unfold entry_cost in *. simpl in *. lia.
Qed.

Lemma loop_body_frontier queue visited :
  start_pending start queue visited → frontier_covers g start queue visited →
  match loop_body g goal queue visited with
  | Skipped _ queue' visited' | Expanded _ queue' visited' =>
      start_pending start queue' visited' ∧ frontier_covers g start queue' visited'
  | _ => True
  end.
Proof.
  intros Hs Hf. pose proof (loop_body_spec g goal queue visited) as H.
  destruct (loop_body g goal queue visited) as [|p c|n q' V'|n|n q' V']; try done.
  - destruct H as (c & p & Hpop & _ & Hn & ->). split.
    + destruct Hs as [?|Hs]; [by left|].
      apply (heappop_elem_of _ _ _ _ Hpop) in Hs as [[= _ <- _]|?]; [by left | by right].
    + intros x y w p0 c0 Hx He Hy Hp.
      destruct (Hf x y w p0 c0 Hx He Hy Hp) as (e & Hin & Hnode & Hle).
      exists e. split; [|done].
      apply (heappop_elem_of _ _ _ _ Hpop) in Hin as [->|?]; [|done].
      unfold entry_node in Hnode. simpl in Hnode. by subst.
  - destruct H as (c & p & q0 & es & Hpop & _ & Hn & Hg & -> & ->). split.
    + destruct Hs as [?|Hs]; [left; apply elem_of_union; by right|].
      apply (heappop_elem_of _ _ _ _ Hpop) in Hs as [[= _ <- _]|?].
      { left. apply elem_of_union. left. by apply elem_of_singleton. }
      right. apply elem_of_push_edges. by left.
    + intros x y w p0 c0 Hx He Hy Hp.
      apply not_elem_of_union in Hy as [Hyn%not_elem_of_singleton Hy].
      destruct (decide (x = n)) as [->|Hxn].
      * exists ((c + w)%Z, y, p ++ [y]). split; [|split; [done|]].
        -- apply elem_of_push_edges. right. exists y, w.
           destruct He as (es' & Hg' & Hin). simplify_eq.
           split_and!; [done| |done].
           rewrite not_elem_of_union, not_elem_of_singleton. by split.
        -- pose proof (popped_cost_minimal _ _ _ _ _ _ Hs Hf Hpop Hn p0 c0 Hp).
           unfold entry_cost. simpl. lia.
      * apply elem_of_union in Hx as [Hx%elem_of_singleton|Hx]; [done|].
        destruct (Hf x y w p0 c0 Hx He Hy Hp) as (e & Hin & Hnode & Hle).
        exists e. split; [|done]. apply elem_of_push_edges. left.
        apply (heappop_elem_of _ _ _ _ Hpop) in Hin as [->|?]; [|done].
        unfold entry_node in Hnode. simpl in Hnode. by subst.
Qed.

(** With the keys of every reachable node and a path to the goal, the loop
    returns a path to the goal of the least cost. *)
Lemma ucs_loop_optimal fuel queue visited :
  reachable_keys g start →
  (∃ p c, path_from_to g start goal p c) →
  entries_valid g start queue → goal ∉ visited →
  start_pending start queue visited → frontier_covers g start queue visited →
  measure g queue visited < fuel →
  ∃ path cost,
    ucs_loop fuel g goal queue visited = Returned (Some (path, cost)) ∧
    path_from_to g start goal path cost ∧
    ∀ p c, path_from_to g start goal p c → (cost ≤ c)%Z.
Proof.
  intros Hkeys (p0 & c0 & Hp0). revert queue visited.
  induction fuel as [|fuel IH]; intros queue visited Hq Hgoal Hs Hf Hm; [lia|].
  simpl.
  pose proof (loop_body_valid queue visited Hq) as Hvalid.
  pose proof (loop_body_visited queue visited) as Hvis.
  pose proof (loop_body_frontier queue visited Hs Hf) as Hfront.
  pose proof (loop_body_measure g goal queue visited) as Hdec.
  pose proof (loop_body_spec g goal queue visited) as H.
  destruct (loop_body g goal queue visited) as [|p c|n q' V'|n|n q' V'].
  - subst queue.
    destruct (frontier_below [] visited goal p0 c0 Hs Hf (path_walk _ _ _ _ _ Hp0) Hgoal)
      as (e & He & _).
    by apply elem_of_nil in He.
  - exists p, c. split; [done|]. split; [done|].
    destruct H as (q' & Hpop).
    by apply (popped_cost_minimal queue visited c goal p q').
  - destruct Hfront as [Hs' Hf']. destruct Hvis as [_ Hgoal'].
    apply IH; auto with lia.
  - destruct Hvalid as (p & c & Hp). destruct H as (? & ? & ? & _ & _ & _ & Hnone).
    destruct (Hkeys n p c Hp) as [es Hes]. congruence.
  - destruct Hfront as [Hs' Hf']. destruct Hvis as [_ Hgoal'].
    apply IH; auto with lia.
Qed.

End invariants.

(** With the keys of every reachable node, the loop raises no [KeyError]
    and returns [None] when no path reaches the goal. *)
Lemma ucs_loop_unreachable g start goal fuel queue visited :
  reachable_keys g start →
  (∀ p c, ¬ path_from_to g start goal p c) →
  entries_valid g start queue →
  measure g queue visited < fuel →
  ucs_loop fuel g goal queue visited = Returned None.
Proof.
  intros Hkeys Hnone Hq Hm.
  pose proof (ucs_loop_enough_fuel g goal fuel queue visited Hm) as Hfuel.
  destruct (ucs_loop fuel g goal queue visited) as [[[p c]|]|n|] eqn:Hr; [|done| |done].
  - apply (ucs_loop_returns_path g start) in Hr; [|done]. by apply Hnone in Hr.
  - apply (ucs_loop_raises g start) in Hr as (Hn & _ & p & c & Hp); [|done].
    destruct (Hkeys n p c Hp) as [es Hes]. congruence.
Qed.

(** ** The iterations of a run *)

Section trace.
Context (g : graph) (goal : node).

(** The iteration at index [i]: its step is the body run on its state, the
    visited set has grown, and the trace goes on as the trace from there. *)
Lemma ucs_trace_suffix fuel queue visited i qi Vi si :
  ucs_trace fuel g goal queue visited !! i = Some (qi, Vi, si) →
  si = loop_body g goal qi Vi ∧ visited ⊆ Vi ∧ (goal ∉ visited → goal ∉ Vi) ∧
  ∀ k, ucs_trace fuel g goal queue visited !! (i + k)
       = ucs_trace (fuel - i) g goal qi Vi !! k.
Proof.
  revert queue visited i.
  induction fuel as [|fuel IH]; intros queue visited [|i]; simpl; try done.
  - intros [= <- <- <-]. done.
  - pose proof (loop_body_visited g goal queue visited) as Hvis.
    destruct (loop_body g goal queue visited) as [|p c|n q' V'|n|n q' V'];
      try done; intros Hi; destruct Hvis as [Hsub Hgoal];
      destruct (IH _ _ _ Hi) as (-> & Hsub' & Hgoal' & Hk);
      (split_and!; [done | by etrans | by auto | done]).
Qed.

(** The measure at the iteration of index [j] has decreased by [j] at least. *)
Lemma ucs_trace_measure fuel queue visited j qj Vj sj :
  ucs_trace fuel g goal queue visited !! j = Some (qj, Vj, sj) →
  measure g qj Vj + j ≤ measure g queue visited.
Proof.
  revert queue visited j.
  induction fuel as [|fuel IH]; intros queue visited [|j]; simpl; try done.
  - intros [= <- <- <-]. lia.
  - pose proof (loop_body_measure g goal queue visited) as Hdec.
    destruct (loop_body g goal queue visited) as [|p c|n q' V'|n|n q' V'];
      try done; intros Hj%IH; lia.
Qed.

Lemma ucs_trace_visited_mono fuel queue visited i j qi Vi si qj Vj sj :
  i ≤ j →
  ucs_trace fuel g goal queue visited !! i = Some (qi, Vi, si) →
  ucs_trace fuel g goal queue visited !! j = Some (qj, Vj, sj) →
  Vi ⊆ Vj.
Proof.
  intros Hij Hi Hj.
  destruct (ucs_trace_suffix _ _ _ _ _ _ _ Hi) as (_ & _ & _ & Hk).
  replace j with (i + (j - i)) in Hj by lia. rewrite Hk in Hj.
  by destruct (ucs_trace_suffix _ _ _ _ _ _ _ Hj) as (_ & ? & _).
Qed.

(** A node is expanded from a state in which it is not visited, and it is
    a key. *)
Lemma ucs_trace_expanded fuel queue visited j qj Vj n q' V' :
  ucs_trace fuel g goal queue visited !! j = Some (qj, Vj, Expanded n q' V') →
  (n ∉ Vj) ∧ (n ∉ visited) ∧ n ≠ goal ∧ is_Some (g !! n) ∧ V' = {[n]} ∪ Vj.
Proof.
  intros Hj. destruct (ucs_trace_suffix _ _ _ _ _ _ _ Hj) as (Hs & Hsub & _).
  pose proof (loop_body_spec g goal qj Vj) as H. rewrite <- Hs in H.
  destruct H as (c & p & q0 & es & _ & Hn & Hv & Hg & -> & _).
  split_and!; [done | by intros ?%Hsub | done | by eexists | done].
Qed.

Lemma elem_of_expansions trace n :
  n ∈ expansions trace ↔
  ∃ j q V q' V', trace !! j = Some (q, V, Expanded n q' V').
Proof.
  unfold expansions. rewrite list_elem_of_omap. split.
  - intros ([[q V] s] & Hin & Hs). unfold expanded_node in Hs. simpl in Hs.
    destruct s; simplify_eq. apply list_elem_of_lookup in Hin as [j Hj]. eauto 10.
  - intros (j & q & V & q' & V' & Hj). exists (q, V, Expanded n q' V').
    split; [by eapply list_elem_of_lookup_2 | done].
Qed.

Lemma expansions_fresh fuel queue visited n :
  n ∈ expansions (ucs_trace fuel g goal queue visited) →
  (n ∉ visited) ∧ is_Some (g !! n).
Proof.
  intros (j & q & V & q' & V' & Hj)%elem_of_expansions.
  by destruct (ucs_trace_expanded _ _ _ _ _ _ _ _ _ Hj) as (_ & ? & _ & ? & _).
Qed.

(** No node is expanded twice. *)
Lemma expansions_NoDup fuel queue visited :
  NoDup (expansions (ucs_trace fuel g goal queue visited)).
Proof.
  revert queue visited. induction fuel as [|fuel IH]; intros queue visited; simpl.
  { apply NoDup_nil_2. }
  pose proof (loop_body_spec g goal queue visited) as H.
  unfold expansions. simpl. unfold expanded_node at 1. simpl.
  destruct (loop_body g goal queue visited) as [|p c|n q' V'|n|n q' V'];
    simpl; try apply NoDup_nil_2; [apply IH|].
  destruct H as (c & p & q0 & es & _ & _ & _ & _ & -> & _).
  apply NoDup_cons. split; [|apply IH].
  intros [Hn _]%expansions_fresh. apply Hn, elem_of_union. left.
  by apply elem_of_singleton.
Qed.

(** There are no more expansions than keys in the dictionary. *)
Lemma expansions_length fuel queue visited :
  length (expansions (ucs_trace fuel g goal queue visited)) ≤ size (dom g).
Proof.
  unfold size, set_size. simpl.
  apply submseteq_length, NoDup_submseteq; [apply expansions_NoDup|].
  intros n [_ Hn]%expansions_fresh. by apply elem_of_elements, elem_of_dom.
Qed.

End trace.

(** ** The search over any heap *)

Lemma heappop_pops queue e rest : heappop queue = Some (e, rest) → pops queue e rest.
Proof. intros Hpop. split; [by apply heappop_perm | by apply (heappop_min queue)]. Qed.

Lemma pops_nil e rest : ¬ pops [] e rest.
Proof. intros [H _]. by apply Permutation_nil_cons in H. Qed.

(** The entry popped and the entries left are those of the queue, however
    it is arranged. *)
Lemma pops_unique queue1 queue2 e1 e2 rest1 rest2 :
  queue1 ≡ₚ queue2 → pops queue1 e1 rest1 → pops queue2 e2 rest2 →
  e1 = e2 ∧ rest1 ≡ₚ rest2.
Proof.
  intros Hq [Hp1 Hmin1] [Hp2 Hmin2].
  assert (e1 = e2) as <-.
  { assert (e1 ∈ e2 :: rest2) as He1.
    { rewrite <- Hp2, <- Hq, Hp1. by left. }
    assert (e2 ∈ e1 :: rest1) as He2.
    { rewrite <- Hp1, Hq, Hp2. by left. }
    apply elem_of_cons in He1 as [?|He1]; [done|].
    apply elem_of_cons in He2 as [?|He2]; [done|].
    apply entry_le_antisym; auto. }
  split; [done|]. apply (Permutation_cons_inv (a:=e1)).
  by rewrite <- Hp1, <- Hp2.
Qed.

Lemma push_edges_perm visited c p edges queue1 queue2 :
  queue1 ≡ₚ queue2 →
  push_edges visited c p edges queue1 ≡ₚ push_edges visited c p edges queue2.
Proof.
  revert queue1 queue2. induction edges as [|[v w] es IH]; intros q1 q2 Hq; simpl; [done|].
  destruct (decide (v ∈ visited)); apply IH; [done|].
  unfold heappush. by rewrite Hq.
Qed.

(** The contract of [heappop] does not depend on the order of insertion. *)
Lemma heappop_perm_invariant queue1 queue2 e rest1 :
  queue1 ≡ₚ queue2 → heappop queue1 = Some (e, rest1) →
  ∃ rest2, heappop queue2 = Some (e, rest2) ∧ rest1 ≡ₚ rest2.
Proof.
  intros Hq Hpop1.
  destruct (heappop queue2) as [[e2 rest2]|] eqn:Hpop2.
  - destruct (pops_unique queue1 queue2 e e2 rest1 rest2 Hq) as [<- Hrest];
      [by apply heappop_pops.. | by exists rest2].
  - apply heappop_None in Hpop2 as ->. apply Permutation_nil_r in Hq as ->. done.
Qed.

Lemma pops_not_nil queue e rest : pops queue e rest → queue ≡ₚ [] → False.
Proof. intros Hpop ->%Permutation_nil_r. by apply pops_nil in Hpop. Qed.

(** Two pops of one queue, in the hypotheses of a goal, are the same pop. *)
Ltac same_pop Hq :=
  match goal with
  | H1 : pops _ _ _, H2 : pops _ _ _ |- _ =>
      let Hrest := fresh "Hrest" in
      destruct (pops_unique _ _ _ _ _ _ Hq H1 H2) as [? Hrest]; simplify_eq
  end.

Ltac no_pop :=
  match goal with
  | H : pops [] _ _ |- _ => by apply pops_nil in H
  | H : pops ?q _ _, Hq : ?q ≡ₚ [] |- _ => by destruct (pops_not_nil _ _ _ H Hq)
  end.

(** All runs from one state, however the queue is arranged, end the same. *)
Lemma ucs_run_deterministic g goal queue1 visited r1 :
  ucs_run g goal queue1 visited r1 →
  ∀ queue2 r2, queue1 ≡ₚ queue2 → ucs_run g goal queue2 visited r2 → r1 = r2.
Proof.
  induction 1 as
    [V | q V c p rest Hpop | q V c n p rest r Hpop Hn Hv Hrun IH
     | q V c n p rest Hpop Hn Hv Hg
     | q V c n p rest es q' r Hpop Hn Hv Hg Hq' Hrun IH];
    intros q2 r2 Hq Hrun2.
  - apply Permutation_nil_l in Hq as <-.
    inversion Hrun2; subst; [done | no_pop..].
  - inversion Hrun2; subst; [no_pop | same_pop Hq..]; done.
  - inversion Hrun2; subst; [no_pop | same_pop Hq..]; try done.
    by eapply IH.
  - inversion Hrun2; subst; [no_pop | same_pop Hq..]; try done.
  - inversion Hrun2; subst; [no_pop | same_pop Hq..]; try done.
    eapply IH; [|done].
    match goal with H : _ ≡ₚ push_edges _ _ _ _ _ |- _ => rewrite H end.
    rewrite Hq'. by apply push_edges_perm.
Qed.

(** The loop of the model is one of these runs. *)
Lemma ucs_loop_run g goal fuel queue visited :
  ucs_loop fuel g goal queue visited ≠ OutOfFuel →
  ucs_run g goal queue visited (ucs_loop fuel g goal queue visited).
Proof.
  revert queue visited. induction fuel as [|fuel IH]; intros queue visited; [done|].
  simpl. pose proof (loop_body_spec g goal queue visited) as H.
  destruct (loop_body g goal queue visited) as [|p c|n q' V'|n|n q' V']; intros Hr.
  - subst. apply run_exhausted.
  - destruct H as (q' & Hpop%heappop_pops). by eapply run_found.
  - destruct H as (c & p & Hpop%heappop_pops & Hn & Hv & ->).
    eapply run_skipped; eauto.
  - destruct H as (c & p & q' & Hpop%heappop_pops & Hn & Hv & Hg).
    by eapply run_raised.
  - destruct H as (c & p & q0 & es & Hpop%heappop_pops & Hn & Hv & Hg & -> & ->).
    eapply run_expanded; eauto.
Qed.

(** ** Checks on a given dictionary *)

Lemma nonneg_costsb_spec g : nonneg_costsb g = true → nonneg_costs g.
Proof.
  intros H%bool_decide_eq_true u v w (es & Hg & Hin).
  pose proof (H u es Hg) as Hes. rewrite Forall_forall in Hes.
  by apply Hes in Hin.
Qed.

Lemma closed_graphb_spec g start :
  closed_graphb g = true → is_Some (g !! start) → reachable_keys g start.
Proof.
  intros H%bool_decide_eq_true Hstart t p c Hp%path_walk.
  induction Hp as [|u v p c w _ _ (es & Hg & Hin)]; [done|].
  pose proof (H u es Hg) as Hes. rewrite Forall_forall in Hes.
  by apply Hes in Hin.
Qed.

(** ** Runs of the whole function *)

Lemma initial_invariants g start goal :
  entries_valid g start (initial_queue start) ∧ (goal ∉ (∅ : gset node)) ∧
  start_pending start (initial_queue start) ∅ ∧
  frontier_covers g start (initial_queue start) ∅.
Proof.
  split_and!.
  - apply entries_valid_initial.
  - apply not_elem_of_empty.
  - right. by apply list_elem_of_singleton.
  - intros x y w p c Hx. by apply not_elem_of_empty in Hx.
Qed.

Lemma uniform_cost_search_finishes g start goal :
  uniform_cost_search g start goal ≠ OutOfFuel.
Proof. apply ucs_loop_enough_fuel, initial_measure. Qed.

Lemma uniform_cost_search_run g start goal :
  ucs_run g goal (initial_queue start) ∅ (uniform_cost_search g start goal).
Proof. apply ucs_loop_run, uniform_cost_search_finishes. Qed.

(** The edges of a path, one cost for each consecutive pair. *)
Lemma path_cost_edges g p c :
  path_cost g p c →
  ∃ costs, consecutive_edges g p costs ∧ c = foldr Z.add 0%Z costs.
Proof.
  induction 1 as [u|u v p w c He Hp (costs & [Hlen Hedges] & ->)].
  - exists []. split; [|done]. split; [done|]. by intros i x y z _ _ Hz.
  - exists (w :: costs). split; [|done]. split; [simpl in *; lia|].
    intros [|i] x y z Hx Hy Hz; simplify_eq/=; [done|]. by eapply Hedges.
Qed.

(** The runs of main.py and of test.py. *)
Example main_run :
  uniform_cost_search main_graph "A" "C" = Returned (Some (["A"; "B"; "C"], 3%Z)).
Proof. vm_compute. reflexivity. Qed.

(** The iterations of the run of main.py, as its comments tell them: ["A"]
    is popped at cost 0, ["B"] at cost 1 while [(5, "C", ["A"; "C"])] waits,
    and ["C"] is popped at cost 3 with the path through ["B"]. *)
Example main_trace :
  ucs_trace 10 main_graph "C" (initial_queue "A") ∅ =
  [ ([(0%Z, "A", ["A"])], ∅,
      Expanded "A" [(1%Z, "B", ["A"; "B"]); (5%Z, "C", ["A"; "C"])] {["A"]});
    ([(1%Z, "B", ["A"; "B"]); (5%Z, "C", ["A"; "C"])], {["A"]},
      Expanded "B" [(5%Z, "C", ["A"; "C"]); (3%Z, "C", ["A"; "B"; "C"])]
        ({["B"]} ∪ {["A"]}));
    ([(5%Z, "C", ["A"; "C"]); (3%Z, "C", ["A"; "B"; "C"])], {["B"]} ∪ {["A"]},
      Found ["A"; "B"; "C"] 3%Z) ].
Proof. vm_compute. reflexivity. Qed.

Example test_run :
  uniform_cost_search test_graph "A" "J"
  = Returned (Some (["A"; "B"; "F"; "H"; "J"], 9%Z)).
Proof. vm_compute. reflexivity. Qed.

(** The path that costs 9 in the graph of test.py goes through ["B"]; the
    path through ["C"] costs 11. *)
Example test_path_via_C : path_cost test_graph ["A"; "C"; "F"; "H"; "J"] 11.
Proof.
  change 11%Z with (1 + (6 + (2 + (2 + 0))))%Z.
  repeat (apply path_cons; [eexists; split; [vm_compute; reflexivity | set_solver]|]).
  apply path_one.
Qed.

(** In [tie_graph] the entries of ["A"] and ["B"] have the same cost and
    ["B"] was pushed first; ["A"] is popped first, and the path returned
    goes through ["A"]. *)
Example tie_run :
  uniform_cost_search tie_graph "S" "G" = Returned (Some (["S"; "A"; "G"], 2%Z)).
Proof. vm_compute. reflexivity. Qed.

(** In [open_graph] only ["A"] and ["B"] are reached from ["A"]. *)
Lemma open_graph_reach t p c : path_from_to open_graph "A" t p c → t = "A" ∨ t = "B".
Proof.
  intros Hp%path_walk. induction Hp as [|u v p c w _ IH (es & Hg & Hin)]; [by left|].
  right. destruct IH as [->| ->]; vm_compute in Hg; simplify_eq.
  by apply list_elem_of_singleton in Hin as [= -> _].
Qed.

(** * The claims *)

(** C1 (optimality).  For every graph whose edge costs are not negative and
    in which every node reachable from [start] is a key, if a path from
    [start] to [goal] exists then [uniform_cost_search g start goal] returns
    a pair, whose path goes from [start] to [goal] and whose cost is the
    least cost of all paths, simple or not, from [start] to [goal]. *)
Theorem ucs_returns_minimum_cost g start goal :
  nonneg_costs g → reachable_keys g start →
  (∃ p c, path_from_to g start goal p c) →
  ∃ path cost,
    uniform_cost_search g start goal = Returned (Some (path, cost)) ∧
    path_from_to g start goal path cost ∧
    ∀ p c, path_from_to g start goal p c → (cost ≤ c)%Z.
Proof.
  intros Hcosts Hkeys Hpath.
  destruct (initial_invariants g start goal) as (Hq & Hgoal & Hs & Hf).
  apply ucs_loop_optimal; auto using initial_measure.
Qed.

Lemma ucs_returns_minimum_cost_witness :
  nonneg_costs main_graph ∧ reachable_keys main_graph "A" ∧
  (∃ p c, path_from_to main_graph "A" "C" p c) ∧
  ∃ path cost,
    uniform_cost_search main_graph "A" "C" = Returned (Some (path, cost)) ∧
    path_from_to main_graph "A" "C" path cost ∧
    ∀ p c, path_from_to main_graph "A" "C" p c → (cost ≤ c)%Z.
Proof.
  assert (Hcosts : nonneg_costs main_graph).
  { apply nonneg_costsb_spec. vm_compute. reflexivity. }
  assert (Hkeys : reachable_keys main_graph "A").
  { apply closed_graphb_spec; [vm_compute; reflexivity | by eexists]. }
  assert (Hpath : ∃ p c, path_from_to main_graph "A" "C" p c).
  { exists ["A"; "C"], (5 + 0)%Z. repeat split.
    apply path_cons; [|apply path_one].
    eexists. split; [vm_compute; reflexivity | set_solver]. }
  split_and!; [done..|].
  exact (ucs_returns_minimum_cost main_graph "A" "C" Hcosts Hkeys Hpath).
Defined.

(** C2 (path validity).  Whenever [uniform_cost_search g start goal]
    returns a pair [(path, cost)], the path starts with [start], ends with
    [goal], every consecutive pair of its nodes is an edge of the graph, and
    the costs of these edges add up to [cost]. *)
Theorem ucs_returned_path_valid g start goal path cost :
  uniform_cost_search g start goal = Returned (Some (path, cost)) →
  head path = Some start ∧ last path = Some goal ∧
  ∃ costs, consecutive_edges g path costs ∧ cost = foldr Z.add 0%Z costs.
Proof.
  intros Hr. apply (ucs_loop_returns_path g start) in Hr as (Hh & Hl & Hp).
  - split_and!; [done..|]. by apply path_cost_edges.
  - apply entries_valid_initial.
Qed.

Lemma ucs_returned_path_valid_witness :
  uniform_cost_search main_graph "A" "C" = Returned (Some (["A"; "B"; "C"], 3%Z)) ∧
  head ["A"; "B"; "C"] = Some "A" ∧ last ["A"; "B"; "C"] = Some "C" ∧
  ∃ costs, consecutive_edges main_graph ["A"; "B"; "C"] costs ∧
           3%Z = foldr Z.add 0%Z costs.
Proof.
  split; [vm_compute; reflexivity|].
  apply (ucs_returned_path_valid main_graph "A" "C"). vm_compute. reflexivity.
Defined.

(** C3 (the graph of test.py), amended.  On the graph of test.py the search
    from ["A"] to ["J"] returns the cost 9 with the path
    [["A"; "B"; "F"; "H"; "J"]]. *)
Theorem test_graph_search :
  uniform_cost_search test_graph "A" "J"
  = Returned (Some (["A"; "B"; "F"; "H"; "J"], 9%Z)).
Proof. vm_compute. reflexivity. Qed.

(** C3 as stated fails: the search does not return the path
    [["A"; "C"; "F"; "H"; "J"]], which costs 11. *)
Lemma test_graph_search_not_via_C :
  uniform_cost_search test_graph "A" "J"
    ≠ Returned (Some (["A"; "C"; "F"; "H"; "J"], 9%Z)) ∧
  path_cost test_graph ["A"; "C"; "F"; "H"; "J"] 11.
Proof. split; [by rewrite test_run | apply test_path_via_C]. Qed.

(** C4 (a node that is not a key), amended.  When the search comes to
    expand a node that is not a key of the dictionary, the lookup
    [graph[current_node]] raises [KeyError] and the call ends with it; a
    key with an empty list is expanded, and nothing is pushed.  A call
    raises [KeyError] only for a node that a path from [start] reaches,
    that is not the goal and not a key; so it raises none when every node
    reachable from [start] is a key. *)
Theorem missing_key_raises g start goal :
  (∀ fuel queue visited c n p rest,
     heappop queue = Some ((c, n, p), rest) → n ≠ goal → n ∉ visited →
     (g !! n = None →
        loop_body g goal queue visited = Raised n ∧
        ucs_loop (S fuel) g goal queue visited = KeyError n) ∧
     (g !! n = Some [] →
        loop_body g goal queue visited = Expanded n rest ({[n]} ∪ visited))) ∧
  (∀ n, uniform_cost_search g start goal = KeyError n →
        g !! n = None ∧ n ≠ goal ∧ ∃ p c, path_from_to g start n p c) ∧
  (reachable_keys g start → ∃ r, uniform_cost_search g start goal = Returned r).
Proof.
  split_and!.
  - intros fuel queue visited c n p rest Hpop Hn Hv.
    split; intros Hg; simpl; unfold loop_body; rewrite Hpop, Hg;
      rewrite decide_False by done; rewrite decide_False by done; done.
  - intros n Hr. apply (ucs_loop_raises g start) in Hr; [done|].
    apply entries_valid_initial.
  - intros Hkeys.
    pose proof (uniform_cost_search_finishes g start goal) as Hfin.
    destruct (uniform_cost_search g start goal) as [r|n|] eqn:Hr; [by exists r| |done].
    apply (ucs_loop_raises g start) in Hr as (Hn & _ & p & c & Hp);
      [|apply entries_valid_initial].
    destruct (Hkeys n p c Hp) as [es Hes]. congruence.
Qed.

Lemma missing_key_raises_witness :
  loop_body open_graph "C" [(1%Z, "B", ["A"; "B"])] {["A"]} = Raised "B" ∧
  ∃ r, uniform_cost_search main_graph "A" "C" = Returned r.
Proof.
  destruct (missing_key_raises open_graph "A" "C") as (Hstep & _ & _).
  destruct (missing_key_raises main_graph "A" "C") as (_ & _ & Hcall).
  split.
  - apply (Hstep 0 [(1%Z, "B", ["A"; "B"])] {["A"]} 1%Z "B" ["A"; "B"] []);
      [reflexivity | done | | reflexivity].
    intros ?%elem_of_singleton. done.
  - apply Hcall, closed_graphb_spec; [vm_compute; reflexivity | by eexists].
Defined.

(** C4 as stated fails: with no key for the start node, the lookup raises
    [KeyError]; with the key and an empty list the same call returns
    [None]. *)
Lemma missing_key_fails :
  loop_body ∅ "B" (initial_queue "A") ∅ = Raised "A" ∧
  uniform_cost_search ∅ "A" "B" = KeyError "A" ∧
  uniform_cost_search {[ "A" := [] ]} "A" "B" = Returned None.
Proof. split_and!; vm_compute; reflexivity. Qed.

(** C5 (unreachable goal), amended.  For every graph in which every node
    reachable from [start] is a key, when no path goes from [start] to
    [goal] the call returns [None]. *)
Theorem unreachable_goal_returns_None g start goal :
  reachable_keys g start →
  (∀ p c, ¬ path_from_to g start goal p c) →
  uniform_cost_search g start goal = Returned None.
Proof.
  intros Hkeys Hnone.
  apply (ucs_loop_unreachable g start); auto using initial_measure, entries_valid_initial.
Qed.

Lemma unreachable_goal_returns_None_witness :
  reachable_keys main_graph "C" ∧
  (∀ p c, ¬ path_from_to main_graph "C" "A" p c) ∧
  uniform_cost_search main_graph "C" "A" = Returned None.
Proof.
  assert (Hkeys : reachable_keys main_graph "C").
  { apply closed_graphb_spec; [vm_compute; reflexivity | by eexists]. }
  assert (Hnone : ∀ p c, ¬ path_from_to main_graph "C" "A" p c).
  { assert (Hreach : ∀ t p c, walk main_graph "C" t p c → t = "C").
    { induction 1 as [|u v p c w _ -> (es & Hg & Hin)]; [done|].
      vm_compute in Hg. simplify_eq. by apply elem_of_nil in Hin. }
    intros p c Hp%path_walk%Hreach. done. }
  split_and!; [done..|].
  exact (unreachable_goal_returns_None main_graph "C" "A" Hkeys Hnone).
Defined.

(** C5 as stated fails: no path goes from ["A"] to ["Z"] in [open_graph],
    and the call raises [KeyError] at ["B"], which is reached and is not a
    key. *)
Lemma unreachable_goal_KeyError :
  (∀ p c, ¬ path_from_to open_graph "A" "Z" p c) ∧
  uniform_cost_search open_graph "A" "Z" = KeyError "B".
Proof.
  split; [|vm_compute; reflexivity].
  intros p c [?|?]%open_graph_reach; done.
Qed.

(** C6 (trivial path).  For every graph and every node [X], the search
    from [X] to [X] returns [([X], 0)], whether [X] is a key or not. *)
Theorem trivial_path (g : graph) (X : node) :
  uniform_cost_search g X X = Returned (Some ([X], 0%Z)).
Proof.
  unfold uniform_cost_search, fuel_bound. rewrite Nat.add_comm. simpl.
  unfold loop_body. simpl. by rewrite decide_True.
Qed.

(** C7 (termination).  For every graph and every [start] and [goal] the
    loop ends: the call returns or raises within [fuel_bound g] iterations,
    and more iterations allowed change nothing.  Along the iterations the
    visited set only grows, the queue holds no more entries than the graph
    has edges, plus one, and there are no more expansions than keys. *)
Theorem ucs_terminates g start goal :
  uniform_cost_search g start goal ≠ OutOfFuel ∧
  (∀ k, ucs_loop (fuel_bound g + k) g goal (initial_queue start) ∅
        = uniform_cost_search g start goal) ∧
  (∀ fuel, length (ucs_trace fuel g goal (initial_queue start) ∅) ≤ fuel_bound g) ∧
  (∀ fuel i j qi Vi si qj Vj sj,
     i ≤ j →
     ucs_trace fuel g goal (initial_queue start) ∅ !! i = Some (qi, Vi, si) →
     ucs_trace fuel g goal (initial_queue start) ∅ !! j = Some (qj, Vj, sj) →
     Vi ⊆ Vj) ∧
  (∀ fuel j qj Vj sj,
     ucs_trace fuel g goal (initial_queue start) ∅ !! j = Some (qj, Vj, sj) →
     length qj + j < fuel_bound g) ∧
  (∀ fuel, length (expansions (ucs_trace fuel g goal (initial_queue start) ∅))
           ≤ size (dom g)).
Proof.
  split_and!.
  - apply uniform_cost_search_finishes.
  - intros k. apply ucs_loop_more_fuel, uniform_cost_search_finishes.
  - intros fuel.
    pose proof (ucs_trace_length g goal fuel (initial_queue start) ∅) as Hlen.
    pose proof (initial_measure g start). lia.
  - intros fuel i j qi Vi si qj Vj sj. apply ucs_trace_visited_mono.
  - intros fuel j qj Vj sj Hj%ucs_trace_measure.
    pose proof (initial_measure g start). unfold measure in *. lia.
  - intros fuel. apply expansions_length.
Qed.

(** C8 (no second expansion).  Along the iterations of a call, a node that
    is in the visited set is not expanded at that iteration or later; an
    entry popped for a visited node is dropped, with the queue left as the
    pop left it and the visited set unchanged; and no node is expanded
    twice. *)
Theorem visited_node_not_expanded_again g start goal fuel :
  (∀ i j qi Vi si qj Vj n q' V',
     i ≤ j →
     ucs_trace fuel g goal (initial_queue start) ∅ !! i = Some (qi, Vi, si) →
     ucs_trace fuel g goal (initial_queue start) ∅ !! j
       = Some (qj, Vj, Expanded n q' V') →
     (n ∉ Vi) ∧ n ∈ V') ∧
  (∀ j qj Vj sj c n p rest,
     ucs_trace fuel g goal (initial_queue start) ∅ !! j = Some (qj, Vj, sj) →
     heappop qj = Some ((c, n, p), rest) → n ∈ Vj →
     sj = Skipped n rest Vj) ∧
  NoDup (expansions (ucs_trace fuel g goal (initial_queue start) ∅)).
Proof.
  split_and!.
  - intros i j qi Vi si qj Vj n q' V' Hij Hi Hj.
    destruct (ucs_trace_expanded _ _ _ _ _ _ _ _ _ _ _ Hj) as (Hn & _ & _ & _ & ->).
    split.
    + intros Hin. apply Hn. by eapply ucs_trace_visited_mono.
    + apply elem_of_union. left. by apply elem_of_singleton.
  - intros j qj Vj sj c n p rest Hj Hpop Hn.
    destruct (ucs_trace_suffix _ _ _ _ _ _ _ _ _ Hj) as (-> & _ & Hgoal & _).
    unfold loop_body. rewrite Hpop.
    rewrite decide_False; [by rewrite decide_True|].
    intros ->. by apply Hgoal; [apply not_elem_of_empty|].
  - apply expansions_NoDup.
Qed.

(** C9 (determinism).  The result of a call depends on the graph, [start]
    and [goal] alone: any two runs of the loop on the same arguments,
    however the heap arranges the queue, end with the same result, which is
    the value of [uniform_cost_search]. *)
Theorem ucs_deterministic g start goal r1 r2 :
  ucs_run g goal (initial_queue start) ∅ r1 →
  ucs_run g goal (initial_queue start) ∅ r2 →
  r1 = r2 ∧ r1 = uniform_cost_search g start goal.
Proof.
  intros H1 H2. split.
  - by apply (ucs_run_deterministic _ _ _ _ _ H1 (initial_queue start)).
  - apply (ucs_run_deterministic _ _ _ _ _ H1 (initial_queue start)); [done|].
    apply uniform_cost_search_run.
Qed.

Lemma ucs_deterministic_witness :
  ucs_run main_graph "C" (initial_queue "A") ∅
    (Returned (Some (["A"; "B"; "C"], 3%Z))) ∧
  Returned (Some (["A"; "B"; "C"], 3%Z)) = Returned (Some (["A"; "B"; "C"], 3%Z)) ∧
  Returned (Some (["A"; "B"; "C"], 3%Z)) = uniform_cost_search main_graph "A" "C".
Proof.
  assert (Hrun : ucs_run main_graph "C" (initial_queue "A") ∅
                   (Returned (Some (["A"; "B"; "C"], 3%Z)))).
  { rewrite <- main_run. apply uniform_cost_search_run. }
  split; [done|]. exact (ucs_deterministic main_graph "A" "C" _ _ Hrun Hrun).
Defined.

(** C10 (ties).  Among the entries of the queue that have the cost of the
    entry popped, the entry popped has the smallest pair (node, path): the
    nodes are compared first and the paths next.  The order in which the
    entries were inserted plays no part: any arrangement of the same
    entries pops the same entry. *)
Theorem heappop_ties_by_node_then_path queue queue' e rest e' :
  heappop queue = Some (e, rest) →
  e' ∈ queue → entry_cost e' = entry_cost e →
  queue' ≡ₚ queue →
  (e' = e ∨
   tie_compare (entry_node e, entry_path e) (entry_node e', entry_path e') = Lt) ∧
  ∃ rest', heappop queue' = Some (e, rest').
Proof.
  intros Hpop Hin Hcost Hperm. split.
  - apply (heappop_elem_of _ _ _ _ Hpop) in Hin as [?|Hin]; [by left|].
    apply (heappop_min _ _ _ Hpop) in Hin. apply entry_le_spec in Hin.
    destruct (entry_compare e e') eqn:Hcmp.
    + left. symmetry. by apply (cmp_eq (cmp:=entry_compare)).
    + right. unfold entry_compare in Hcmp. rewrite <- Hcost in Hcmp.
      by rewrite Z.compare_refl in Hcmp.
    + by apply (cmp_gt_lt entry_compare) in Hcmp.
  - symmetry in Hperm.
    destruct (heappop_perm_invariant _ _ _ _ Hperm Hpop) as (rest' & ? & _).
    by exists rest'.
Qed.

Lemma heappop_ties_by_node_then_path_witness :
  heappop [(1%Z, "B", ["S"; "B"]); (1%Z, "A", ["S"; "A"])]
    = Some ((1%Z, "A", ["S"; "A"]), [(1%Z, "B", ["S"; "B"])]) ∧
  ((1%Z, "B", ["S"; "B"]) = (1%Z, "A", ["S"; "A"]) ∨
   tie_compare ("A", ["S"; "A"]) ("B", ["S"; "B"]) = Lt) ∧
  ∃ rest', heappop [(1%Z, "A", ["S"; "A"]); (1%Z, "B", ["S"; "B"])]
           = Some ((1%Z, "A", ["S"; "A"]), rest').
Proof.
  split; [reflexivity|].
  apply (heappop_ties_by_node_then_path
           [(1%Z, "B", ["S"; "B"]); (1%Z, "A", ["S"; "A"])]
           [(1%Z, "A", ["S"; "A"]); (1%Z, "B", ["S"; "B"])]
           (1%Z, "A", ["S"; "A"]) [(1%Z, "B", ["S"; "B"])]
           (1%Z, "B", ["S"; "B"])).
  - reflexivity.
  - by left.
  - reflexivity.
  - apply Permutation_swap.
Defined.

(** * Further properties of the search *)

(** ** Invariants, along the loop and along its iterations *)

(** A property of the state that every iteration hands on holds at every
    iteration of a run. *)
Lemma ucs_trace_inv g goal (P : list entry → gset node → Prop) :
  (∀ q V, P q V →
     match loop_body g goal q V with
     | Skipped _ q' V' | Expanded _ q' V' => P q' V'
     | _ => True
     end) →
  ∀ fuel q V j qj Vj sj,
    P q V → ucs_trace fuel g goal q V !! j = Some (qj, Vj, sj) → P qj Vj.
Proof.
  intros Hstep. induction fuel as [|fuel IH]; intros q V [|j] qj Vj sj HP; simpl; try done.
  - by intros [= <- <- <-].
  - specialize (Hstep q V HP).
    destruct (loop_body g goal q V) as [|p c|n q' V'|n|n q' V']; try done; by apply IH.
Qed.

(** Two amounts of fuel that both suffice give the same result. *)
Lemma ucs_loop_fuel_irrelevant g goal fuel1 fuel2 queue visited :
  ucs_loop fuel1 g goal queue visited ≠ OutOfFuel →
  ucs_loop fuel2 g goal queue visited ≠ OutOfFuel →
  ucs_loop fuel1 g goal queue visited = ucs_loop fuel2 g goal queue visited.
Proof.
  intros H1 H2. destruct (decide (fuel1 ≤ fuel2)).
  - replace fuel2 with (fuel1 + (fuel2 - fuel1)) by lia.
    symmetry. by apply ucs_loop_more_fuel.
  - replace fuel1 with (fuel2 + (fuel1 - fuel2)) by lia.
    by apply ucs_loop_more_fuel.
Qed.

Section reachability.
Context (g : graph) (start goal : node).

Lemma loop_body_queued queue visited :
  start_pending start queue visited ∧ edges_queued g queue visited ∧
  visited_keys g visited →
  match loop_body g goal queue visited with
  | Skipped _ queue' visited' | Expanded _ queue' visited' =>
      start_pending start queue' visited' ∧ edges_queued g queue' visited' ∧
      visited_keys g visited'
  | _ => True
  end.
Proof.
  intros (Hs & He & Hk). pose proof (loop_body_spec g goal queue visited) as H.
  destruct (loop_body g goal queue visited) as [|p c|n q' V'|n|n q' V']; try done.
  - destruct H as (c & p & Hpop & _ & Hn & ->). split_and!; [|intros x y w Hx Hxy Hy|done].
    + destruct Hs as [?|Hs]; [by left|].
      apply (heappop_elem_of _ _ _ _ Hpop) in Hs as [[= _ <- _]|?]; [by left | by right].
    + destruct (He x y w Hx Hxy Hy) as (e & Hin & Hnode). exists e. split; [|done].
      apply (heappop_elem_of _ _ _ _ Hpop) in Hin as [->|?]; [|done].
      unfold entry_node in Hnode. simpl in Hnode. by subst.
  - destruct H as (c & p & q0 & es & Hpop & _ & Hn & Hg & -> & ->).
    split_and!; [|intros x y w Hx Hxy Hy|intros x Hx].
    + destruct Hs as [?|Hs]; [left; apply elem_of_union; by right|].
      apply (heappop_elem_of _ _ _ _ Hpop) in Hs as [[= _ <- _]|?].
      { left. apply elem_of_union. left. by apply elem_of_singleton. }
      right. apply elem_of_push_edges. by left.
    + pose proof Hy as Hy'.
      apply not_elem_of_union in Hy as [Hyn%not_elem_of_singleton Hy].
      apply elem_of_union in Hx as [->%elem_of_singleton|Hx].
      * exists ((c + w)%Z, y, p ++ [y]). split; [|done].
        apply elem_of_push_edges. right. exists y, w.
        destruct Hxy as (es' & Hg' & Hin). by simplify_eq.
      * destruct (He x y w Hx Hxy Hy) as (e & Hin & Hnode). exists e. split; [|done].
        apply elem_of_push_edges. left.
        apply (heappop_elem_of _ _ _ _ Hpop) in Hin as [->|?]; [|done].
        unfold entry_node in Hnode. simpl in Hnode. by subst.
    + apply elem_of_union in Hx as [->%elem_of_singleton|Hx]; [by eexists | by apply Hk].
Qed.

(** Every node that a path from [start] reaches is visited, or an entry
    is pending. *)
Lemma queued_reach queue visited t p c :
  start_pending start queue visited → edges_queued g queue visited →
  walk g start t p c → t ∈ visited ∨ ∃ e, e ∈ queue.
Proof.
  intros Hs He. induction 1 as [|u v p c w _ IH Huv].
  - destruct Hs as [?|?]; [by left | right; by eexists].
  - destruct IH as [Hu|?]; [|by right].
    destruct (decide (v ∈ visited)) as [?|Hv]; [by left|].
    destruct (He u v w Hu Huv Hv) as (e & ? & _). right. by exists e.
Qed.

(** When the loop returns [None], no path reaches the goal and every node
    reached is a key. *)
Lemma ucs_loop_None fuel queue visited :
  start_pending start queue visited → edges_queued g queue visited →
  visited_keys g visited → goal ∉ visited →
  ucs_loop fuel g goal queue visited = Returned None →
  (∀ p c, ¬ path_from_to g start goal p c) ∧ reachable_keys g start.
Proof.
  revert queue visited.
  induction fuel as [|fuel IH]; intros queue visited Hs He Hk Hgoal; [done|].
  simpl.
  pose proof (loop_body_queued queue visited (conj Hs (conj He Hk))) as Hnext.
  pose proof (loop_body_visited g goal queue visited) as Hvis.
  pose proof (loop_body_spec g goal queue visited) as H.
  destruct (loop_body g goal queue visited) as [|p c|n q' V'|n|n q' V']; try done.
  - intros _. subst queue.
    assert (Hall : ∀ t p c, path_from_to g start t p c → t ∈ visited).
    { intros t p c Hp%path_walk.
      destruct (queued_reach [] visited t p c Hs He Hp) as [?|(e & Hin)]; [done|].
      by apply elem_of_nil in Hin. }
    split.
    + intros p c Hp%Hall. done.
    + intros t p c Hp%Hall. by apply Hk.
  - destruct Hnext as (? & ? & ?), Hvis as [_ ?]. apply IH; auto.
  - destruct Hnext as (? & ? & ?), Hvis as [_ ?]. apply IH; auto.
Qed.

(** The paths of the entries visit no node twice. *)
Lemma loop_body_simple queue visited :
  entries_simple queue visited →
  match loop_body g goal queue visited with
  | Exhausted | Raised _ => True
  | Found path _ => NoDup path
  | Skipped _ queue' visited' | Expanded _ queue' visited' =>
      entries_simple queue' visited'
  end.
Proof.
  intros Hq. pose proof (loop_body_spec g goal queue visited) as H.
  destruct (loop_body g goal queue visited) as [|p c|n q' V'|n|n q' V']; [done|..|done|].
  - destruct H as (q' & Hpop%heappop_elem). by apply Hq in Hpop as [? _].
  - destruct H as (c & p & Hpop & _ & _ & ->).
    intros c' n' p' Hin. apply (Hq c' n' p'). by eapply heappop_rest.
  - destruct H as (c & p & q0 & es & Hpop & _ & Hn & Hg & -> & ->).
    destruct (Hq c n p (heappop_elem _ _ _ Hpop)) as [Hnd Hin].
    assert (Hp : ∀ x, x ∈ p → x ∈ ({[n]} ∪ visited : gset node)).
    { intros x [->|?]%Hin; apply elem_of_union; [left; by apply elem_of_singleton | by right]. }
    intros c' n' p' [Hold|(v & w & _ & Hv & [= -> -> ->])]%elem_of_push_edges.
    + destruct (Hq c' n' p' (heappop_rest _ _ _ _ Hpop Hold)) as [? Hin'].
      split; [done|]. intros x [?|?]%Hin'; [by left|]. right. apply elem_of_union. by right.
    + split.
      * apply NoDup_app. split_and!; [done| |apply NoDup_singleton].
        intros x Hx ->%list_elem_of_singleton. by apply Hv, Hp.
      * intros x [?| ->%list_elem_of_singleton]%elem_of_app; [right; by apply Hp | by left].
Qed.

Lemma ucs_loop_returns_simple fuel queue visited path cost :
  entries_simple queue visited →
  ucs_loop fuel g goal queue visited = Returned (Some (path, cost)) →
  NoDup path.
Proof.
  revert queue visited. induction fuel as [|fuel IH]; intros queue visited Hq; [done|].
  simpl. pose proof (loop_body_simple queue visited Hq) as Hstep.
  destruct (loop_body g goal queue visited) as [|p c|n q' V'|n|n q' V']; try done.
  - by intros [= <- <-].
  - by apply IH.
  - by apply IH.
Qed.

End reachability.

(** ** Least costs, without the keys *)

Lemma ucs_loop_returns_min g start goal fuel queue visited path cost :
  nonneg_costs g → goal ∉ visited →
  start_pending start queue visited → frontier_covers g start queue visited →
  ucs_loop fuel g goal queue visited = Returned (Some (path, cost)) →
  ∀ p c, path_from_to g start goal p c → (cost ≤ c)%Z.
Proof.
  intros Hcosts. revert queue visited.
  induction fuel as [|fuel IH]; intros queue visited Hgoal Hs Hf; [done|].
  simpl.
  pose proof (loop_body_visited g goal queue visited) as Hvis.
  pose proof (loop_body_frontier g start goal Hcosts queue visited Hs Hf) as Hfront.
  pose proof (loop_body_spec g goal queue visited) as H.
  destruct (loop_body g goal queue visited) as [|p c|n q' V'|n|n q' V']; try done.
  - intros [= <- <-]. destruct H as (q' & Hpop).
    by eapply popped_cost_minimal.
  - destruct Hfront as [? ?], Hvis as [_ ?]. apply IH; auto.
  - destruct Hfront as [? ?], Hvis as [_ ?]. apply IH; auto.
Qed.

(** The three invariants of the frontier, at every iteration of a run. *)
Lemma ucs_trace_frontier g start goal fuel j qj Vj sj :
  nonneg_costs g →
  ucs_trace fuel g goal (initial_queue start) ∅ !! j = Some (qj, Vj, sj) →
  entries_valid g start qj ∧ start_pending start qj Vj ∧
  frontier_covers g start qj Vj.
Proof.
  intros Hcosts.
  apply (ucs_trace_inv g goal
           (λ q V, entries_valid g start q ∧ start_pending start q V ∧
                   frontier_covers g start q V)).
  - intros q V (Hq & Hs & Hf).
    pose proof (loop_body_valid g start goal q V Hq) as Hvalid.
    pose proof (loop_body_frontier g start goal Hcosts q V Hs Hf) as Hfront.
    destruct (loop_body g goal q V); try done; by destruct Hfront.
  - by destruct (initial_invariants g start goal) as (? & _ & ? & ?).
Qed.

(** No iteration pushes an entry that costs less than the entry it popped. *)
Lemma loop_body_above g goal bound queue visited :
  nonneg_costs g → entries_above bound queue →
  match loop_body g goal queue visited with
  | Skipped _ queue' _ | Expanded _ queue' _ => entries_above bound queue'
  | _ => True
  end.
Proof.
  intros Hcosts Hq. pose proof (loop_body_spec g goal queue visited) as H.
  destruct (loop_body g goal queue visited) as [|p c|n q' V'|n|n q' V']; try done.
  - destruct H as (c & p & Hpop & _). intros e He. apply Hq. by eapply heappop_rest.
  - destruct H as (c & p & q0 & es & Hpop & _ & _ & Hg & -> & ->).
    intros e [He|(v & w & Hin & _ & ->)]%elem_of_push_edges.
    + apply Hq. by eapply heappop_rest.
    + pose proof (Hq _ (heappop_elem _ _ _ Hpop)) as Hc.
      assert (0 ≤ w)%Z by (apply (Hcosts n v w); by exists es).
      unfold entry_cost in *. simpl in *. lia.
Qed.

(** ** The order of the edges in a list *)

Lemma push_edges_perm_edges visited c p edges1 edges2 queue :
  edges1 ≡ₚ edges2 →
  push_edges visited c p edges1 queue ≡ₚ push_edges visited c p edges2 queue.
Proof.
  intros Hes. revert queue.
  induction Hes as [|[v w] es1 es2 _ IH|[v w] [v' w'] es|es1 es2 es3 _ IH1 _ IH2];
    intros queue; simpl.
  - done.
  - destruct (decide (v ∈ visited)); apply IH.
  - destruct (decide (v ∈ visited)), (decide (v' ∈ visited)); try done.
    apply push_edges_perm. unfold heappush. rewrite <- !(assoc_L (++)).
    apply Permutation_app; [done | apply Permutation_swap].
  - by rewrite IH1.
Qed.

Lemma ucs_run_same_edges g1 g2 goal queue visited r :
  same_edges g1 g2 →
  ucs_run g1 goal queue visited r → ucs_run g2 goal queue visited r.
Proof.
  intros Hg. induction 1 as
    [V | q V c p rest Hpop | q V c n p rest r Hpop Hn Hv Hrun IH
     | q V c n p rest Hpop Hn Hv Hg1
     | q V c n p rest es q' r Hpop Hn Hv Hg1 Hq' Hrun IH].
  - apply run_exhausted.
  - by eapply run_found.
  - by eapply run_skipped.
  - eapply run_raised; [done..|].
    specialize (Hg n). rewrite Hg1 in Hg. by inversion Hg.
  - specialize (Hg n). rewrite Hg1 in Hg.
    inversion Hg as [es1 es2 Hes Hes1 Hg2|]; subst.
    symmetry in Hg2.
    eapply run_expanded; [done.. | | done].
    rewrite Hq'. by apply push_edges_perm_edges.
Qed.

(** ** The part of the graph that a call reads *)

Lemma loop_body_agree g1 g2 start goal queue visited :
  agree_on_reachable g1 g2 start goal → entries_valid g1 start queue →
  loop_body g1 goal queue visited = loop_body g2 goal queue visited.
Proof.
  intros Hg Hq. unfold loop_body.
  destruct (heappop queue) as [[[[c n] p] rest]|] eqn:Hpop; [|done].
  destruct (decide (n = goal)) as [|Hn]; [done|].
  destruct (decide (n ∈ visited)); [done|].
  by rewrite (Hg n p c (Hq c n p (heappop_elem _ _ _ Hpop)) Hn).
Qed.

Lemma ucs_loop_agree g1 g2 start goal fuel queue visited :
  agree_on_reachable g1 g2 start goal → entries_valid g1 start queue →
  ucs_loop fuel g1 goal queue visited = ucs_loop fuel g2 goal queue visited.
Proof.
  intros Hg. revert queue visited.
  induction fuel as [|fuel IH]; intros queue visited Hq; [done|].
  simpl. pose proof (loop_body_valid g1 start goal queue visited Hq) as Hvalid.
  rewrite <- (loop_body_agree g1 g2 start goal queue visited Hg Hq).
  destruct (loop_body g1 goal queue visited); try done; by apply IH.
Qed.

(** ** What a call returns *)

(** X1.  With costs that are not negative, a pair that a call returns has
    the least cost of all paths from [start] to [goal], on any dictionary:
    nothing is asked of its keys. *)
Theorem ucs_returned_cost_minimal g start goal path cost :
  nonneg_costs g →
  uniform_cost_search g start goal = Returned (Some (path, cost)) →
  ∀ p c, path_from_to g start goal p c → (cost ≤ c)%Z.
Proof.
  intros Hcosts Hr.
  destruct (initial_invariants g start goal) as (_ & Hgoal & Hs & Hf).
  by eapply ucs_loop_returns_min.
Qed.

Lemma ucs_returned_cost_minimal_witness :
  nonneg_costs open_graph ∧
  uniform_cost_search open_graph "A" "B" = Returned (Some (["A"; "B"], 1%Z)) ∧
  ∀ p c, path_from_to open_graph "A" "B" p c → (1 ≤ c)%Z.
Proof.
  assert (Hcosts : nonneg_costs open_graph).
  { apply nonneg_costsb_spec. vm_compute. reflexivity. }
  assert (Hr : uniform_cost_search open_graph "A" "B"
               = Returned (Some (["A"; "B"], 1%Z))).
  { vm_compute. reflexivity. }
  split_and!; [done..|].
  exact (ucs_returned_cost_minimal open_graph "A" "B" ["A"; "B"] 1%Z Hcosts Hr).
Defined.

(** X2.  A call returns [None] exactly when no path goes from [start] to
    [goal] and every node that a path from [start] reaches is a key. *)
Theorem ucs_None_iff_unreachable g start goal :
  uniform_cost_search g start goal = Returned None ↔
  reachable_keys g start ∧ ∀ p c, ¬ path_from_to g start goal p c.
Proof.
  split.
  - intros Hr. destruct (initial_invariants g start goal) as (_ & Hgoal & Hs & _).
    assert (He : edges_queued g (initial_queue start) ∅).
    { intros x y w Hx. by apply not_elem_of_empty in Hx. }
    assert (Hk : visited_keys g ∅).
    { intros x Hx. by apply not_elem_of_empty in Hx. }
    by destruct (ucs_loop_None g start goal _ _ _ Hs He Hk Hgoal Hr).
  - intros [Hkeys Hnone].
    apply (ucs_loop_unreachable g start);
      auto using initial_measure, entries_valid_initial.
Qed.

(** X3.  The path that a call returns visits no node twice, whatever the
    cycles and the costs of the graph. *)
Theorem ucs_returned_path_simple g start goal path cost :
  uniform_cost_search g start goal = Returned (Some (path, cost)) →
  NoDup path.
Proof.
  apply (ucs_loop_returns_simple g goal).
  intros c n p [= -> -> ->]%list_elem_of_singleton. split.
  - apply NoDup_singleton.
  - intros x ->%list_elem_of_singleton. by left.
Qed.

Lemma ucs_returned_path_simple_witness :
  uniform_cost_search cycle_graph "A" "C" = Returned (Some (["A"; "B"; "C"], 1%Z)) ∧
  NoDup ["A"; "B"; "C"].
Proof.
  assert (Hr : uniform_cost_search cycle_graph "A" "C"
               = Returned (Some (["A"; "B"; "C"], 1%Z))).
  { vm_compute. reflexivity. }
  split; [done|].
  exact (ucs_returned_path_simple cycle_graph "A" "C" ["A"; "B"; "C"] 1%Z Hr).
Defined.

(** X4.  The order of the edges in the lists of the dictionary changes
    nothing: two dictionaries with the same keys and the same edges give
    the same result, path included. *)
Theorem edge_order_irrelevant g1 g2 start goal :
  same_edges g1 g2 →
  uniform_cost_search g1 start goal = uniform_cost_search g2 start goal.
Proof.
  intros Hg.
  apply (ucs_run_deterministic g2 goal (initial_queue start) ∅
           _ (ucs_run_same_edges g1 g2 goal _ _ _ Hg
                (uniform_cost_search_run g1 start goal))
           (initial_queue start)); [done|].
  apply uniform_cost_search_run.
Qed.

Lemma edge_order_irrelevant_witness :
  same_edges tie_graph (<["S" := [("A", 1%Z); ("B", 1%Z)]]> tie_graph) ∧
  uniform_cost_search tie_graph "S" "G"
  = uniform_cost_search (<["S" := [("A", 1%Z); ("B", 1%Z)]]> tie_graph) "S" "G".
Proof.
  assert (Hg : same_edges tie_graph (<["S" := [("A", 1%Z); ("B", 1%Z)]]> tie_graph)).
  { intros n. destruct (decide (n = "S")) as [->|Hn].
    - rewrite lookup_insert_eq. change (tie_graph !! "S")
        with (Some [("B", 1%Z); ("A", 1%Z)] : option (list (string * Z))).
      constructor. apply Permutation_swap.
    - rewrite lookup_insert_ne by done. by destruct (tie_graph !! n); constructor. }
  split; [done|].
  exact (edge_order_irrelevant _ _ "S" "G" Hg).
Defined.

(** X5.  A call reads the dictionary only at the nodes that a path from
    [start] reaches, the goal apart: a dictionary that agrees there gives
    the same result.  The list of the goal itself is never read. *)
Theorem unreached_part_irrelevant g1 g2 start goal :
  agree_on_reachable g1 g2 start goal →
  uniform_cost_search g1 start goal = uniform_cost_search g2 start goal.
Proof.
  intros Hg. unfold uniform_cost_search at 1.
  rewrite (ucs_loop_agree g1 g2 start goal) by auto using entries_valid_initial.
  apply ucs_loop_fuel_irrelevant; [|apply uniform_cost_search_finishes].
  rewrite <- (ucs_loop_agree g1 g2 start goal) by auto using entries_valid_initial.
  apply uniform_cost_search_finishes.
Qed.

Lemma unreached_part_irrelevant_witness :
  agree_on_reachable main_graph (delete "C" main_graph) "A" "C" ∧
  uniform_cost_search main_graph "A" "C"
  = uniform_cost_search (delete "C" main_graph) "A" "C".
Proof.
  assert (Hg : agree_on_reachable main_graph (delete "C" main_graph) "A" "C").
  { intros n p c _ Hn. by rewrite lookup_delete_ne. }
  split; [done|].
  exact (unreached_part_irrelevant _ _ "A" "C" Hg).
Defined.

(** ** What the loop keeps *)

(** X6.  At every iteration of a call, every entry [(c, n, p)] of the queue
    holds a path [p] of the graph from [start] to [n], and [c] is its
    cost. *)
Theorem queue_entries_are_paths g start goal fuel j qj Vj sj c n p :
  ucs_trace fuel g goal (initial_queue start) ∅ !! j = Some (qj, Vj, sj) →
  (c, n, p) ∈ qj →
  path_from_to g start n p c.
Proof.
  intros Hj Hin.
  apply (ucs_trace_inv g goal (λ q _, entries_valid g start q)) in Hj.
  - by apply Hj.
  - intros q V Hq. pose proof (loop_body_valid g start goal q V Hq) as Hvalid.
    by destruct (loop_body g goal q V).
  - apply entries_valid_initial.
Qed.

Lemma queue_entries_are_paths_witness :
  ucs_trace 10 main_graph "C" (initial_queue "A") ∅ !! 1
  = Some ([(1%Z, "B", ["A"; "B"]); (5%Z, "C", ["A"; "C"])], {["A"]},
          Expanded "B" [(5%Z, "C", ["A"; "C"]); (3%Z, "C", ["A"; "B"; "C"])]
            ({["B"]} ∪ {["A"]})) ∧
  path_from_to main_graph "A" "C" ["A"; "C"] 5.
Proof.
  assert (Hj : ucs_trace 10 main_graph "C" (initial_queue "A") ∅ !! 1
    = Some ([(1%Z, "B", ["A"; "B"]); (5%Z, "C", ["A"; "C"])], {["A"]},
            Expanded "B" [(5%Z, "C", ["A"; "C"]); (3%Z, "C", ["A"; "B"; "C"])]
              ({["B"]} ∪ {["A"]}))).
  { vm_compute. reflexivity. }
  split; [done|].
  apply (queue_entries_are_paths main_graph "A" "C" 10 1 _ _ _ 5%Z "C" ["A"; "C"] Hj).
  apply elem_of_cons. right. apply elem_of_cons. by left.
Defined.

(** X7.  With costs that are not negative, the costs of the entries popped
    never decrease along the iterations of a call. *)
Theorem popped_costs_nondecreasing g start goal fuel i j qi Vi si qj Vj sj ei ri ej rj :
  nonneg_costs g → i ≤ j →
  ucs_trace fuel g goal (initial_queue start) ∅ !! i = Some (qi, Vi, si) →
  ucs_trace fuel g goal (initial_queue start) ∅ !! j = Some (qj, Vj, sj) →
  heappop qi = Some (ei, ri) → heappop qj = Some (ej, rj) →
  (entry_cost ei ≤ entry_cost ej)%Z.
Proof.
  intros Hcosts Hij Hi Hj Hpi Hpj.
  destruct (ucs_trace_suffix _ _ _ _ _ _ _ _ _ Hi) as (_ & _ & _ & Hk).
  replace j with (i + (j - i)) in Hj by lia. rewrite Hk in Hj.
  apply (ucs_trace_inv g goal (λ q _, entries_above (entry_cost ei) q)) in Hj.
  - apply Hj. by eapply heappop_elem.
  - intros q V Hq. by apply loop_body_above.
  - intros e [->|He]%(heappop_elem_of _ _ _ _ Hpi); [done|].
    by apply entry_le_cost, (heappop_min _ _ _ Hpi).
Qed.

(** X8.  With costs that are not negative, the entry popped for a node
    that is not visited yet holds a path to it of the least cost: a node is
    expanded from its cheapest path. *)
Theorem first_pop_has_least_cost g start goal fuel j qj Vj sj c n p rest :
  nonneg_costs g →
  ucs_trace fuel g goal (initial_queue start) ∅ !! j = Some (qj, Vj, sj) →
  heappop qj = Some ((c, n, p), rest) → n ∉ Vj →
  path_from_to g start n p c ∧
  ∀ p' c', path_from_to g start n p' c' → (c ≤ c')%Z.
Proof.
  intros Hcosts Hj Hpop Hn.
  destruct (ucs_trace_frontier g start goal fuel j qj Vj sj Hcosts Hj) as (Hq & Hs & Hf).
  split.
  - apply Hq. by eapply heappop_elem.
  - by eapply popped_cost_minimal.
Qed.

Lemma popped_costs_nondecreasing_witness :
  nonneg_costs main_graph ∧
  (entry_cost (0%Z, "A", ["A"]) ≤ entry_cost (3%Z, "C", ["A"; "B"; "C"]))%Z.
Proof.
  assert (Hcosts : nonneg_costs main_graph).
  { apply nonneg_costsb_spec. vm_compute. reflexivity. }
  split; [done|].
  apply (popped_costs_nondecreasing main_graph "A" "C" 10 0 2
           [(0%Z, "A", ["A"])] ∅
           (Expanded "A" [(1%Z, "B", ["A"; "B"]); (5%Z, "C", ["A"; "C"])] {["A"]})
           [(5%Z, "C", ["A"; "C"]); (3%Z, "C", ["A"; "B"; "C"])] ({["B"]} ∪ {["A"]})
           (Found ["A"; "B"; "C"] 3%Z)
           (0%Z, "A", ["A"]) [] (3%Z, "C", ["A"; "B"; "C"]) [(5%Z, "C", ["A"; "C"])]);
    [done | lia | vm_compute; reflexivity.. ].
Defined.

Lemma first_pop_has_least_cost_witness :
  nonneg_costs main_graph ∧
  path_from_to main_graph "A" "B" ["A"; "B"] 1 ∧
  ∀ p' c', path_from_to main_graph "A" "B" p' c' → (1 ≤ c')%Z.
Proof.
  assert (Hcosts : nonneg_costs main_graph).
  { apply nonneg_costsb_spec. vm_compute. reflexivity. }
  split; [done|].
  apply (first_pop_has_least_cost main_graph "A" "C" 10 1
           [(1%Z, "B", ["A"; "B"]); (5%Z, "C", ["A"; "C"])] {["A"]}
           (Expanded "B" [(5%Z, "C", ["A"; "C"]); (3%Z, "C", ["A"; "B"; "C"])]
              ({["B"]} ∪ {["A"]}))
           1%Z "B" ["A"; "B"] [(5%Z, "C", ["A"; "C"])]);
    [done | vm_compute; reflexivity | vm_compute; reflexivity |].
  intros ?%elem_of_singleton. done.
Defined.

(** ** The edges of the start node, and costs below zero *)

(** X9.  When [start] is not the goal: if [start] is not a key the call
    raises [KeyError] for it, and if its list is empty the call returns
    [None]. *)
Theorem start_without_edges g start goal :
  start ≠ goal →
  (g !! start = None → uniform_cost_search g start goal = KeyError start) ∧
  (g !! start = Some [] → uniform_cost_search g start goal = Returned None).
Proof.
  intros Hne. unfold uniform_cost_search, fuel_bound. rewrite Nat.add_comm.
  split; intros Hg; simpl; unfold loop_body at 1; simpl;
    rewrite decide_False by done;
    rewrite decide_False by apply not_elem_of_empty;
    rewrite Hg; done.
Qed.

Lemma start_without_edges_witness :
  "A" ≠ "B" ∧
  ((∅ : gmap string (list (string * Z))) !! "A" = None →
     uniform_cost_search ∅ "A" "B" = KeyError "A") ∧
  ((∅ : gmap string (list (string * Z))) !! "A" = Some [] →
     uniform_cost_search ∅ "A" "B" = Returned None).
Proof.
  assert (Hne : "A" ≠ "B") by done.
  split; [done|]. exact (start_without_edges ∅ "A" "B" Hne).
Defined.

(** X10.  Costs are not checked, and with a cost below zero the pair
    returned need not be the cheapest: when the direct edge to the goal is
    popped first, the call returns it, though the way round costs less. *)
Theorem negative_cost_not_minimal direct first second :
  (direct < first)%Z → (first + second < direct)%Z →
  uniform_cost_search (detour_graph direct first second) "A" "C"
  = Returned (Some (["A"; "C"], direct)) ∧
  path_from_to (detour_graph direct first second) "A" "C"
    ["A"; "B"; "C"] (first + second).
Proof.
  intros Hlt Hround. split.
  - assert (Hrun : ucs_loop 2 (detour_graph direct first second) "C"
                     (initial_queue "A") ∅
                   = Returned (Some (["A"; "C"], direct))).
    { simpl. unfold loop_body at 1. simpl.
      rewrite decide_False by apply not_elem_of_empty.
      unfold detour_graph. rewrite lookup_insert_eq. simpl.
      assert (Hfresh : ∀ x : node, x ≠ "A" → x ∉ ({["A"]} ∪ ∅ : gset node)).
      { by intros x Hx [?%elem_of_singleton|?%not_elem_of_empty]%elem_of_union. }
      rewrite (decide_False (P:="B" ∈ _)) by by apply Hfresh.
      rewrite (decide_False (P:="C" ∈ _)) by by apply Hfresh.
      unfold loop_body, heappush. simpl.
      unfold entry_lt, entry_compare, entry_cost. simpl.
      rewrite !Z.add_0_l.
      assert ((direct ?= first)%Z = Lt) as -> by by apply Z.compare_lt_iff.
      done. }
    unfold uniform_cost_search, fuel_bound. rewrite Nat.add_comm.
    rewrite ucs_loop_more_fuel; [done | by rewrite Hrun].
  - repeat split. replace (first + second)%Z with (first + (second + 0))%Z by lia.
    unfold detour_graph.
    apply path_cons; [|apply path_cons; [|apply path_one]].
    + eexists. split; [apply lookup_insert_eq|]. apply elem_of_cons. by left.
    + eexists. split; [rewrite lookup_insert_ne by done; apply lookup_singleton_eq|].
      apply elem_of_cons. by left.
Qed.

Lemma negative_cost_not_minimal_witness :
  (1 < 2)%Z ∧ (2 + -5 < 1)%Z ∧
  uniform_cost_search (detour_graph 1 2 (-5)) "A" "C"
  = Returned (Some (["A"; "C"], 1%Z)) ∧
  path_from_to (detour_graph 1 2 (-5)) "A" "C" ["A"; "B"; "C"] (2 + -5).
Proof.
  assert (H1 : (1 < 2)%Z) by lia.
  assert (H2 : (2 + -5 < 1)%Z) by lia.
  split_and!; [done..| |]; apply (negative_cost_not_minimal 1 2 (-5) H1 H2).
Defined.
